(** * cmd/compile/internal/types/alg.go: comparison and hashing algorithm kinds

    A shallow embedding of [AlgType], [TypeHasNoAlg], [IsComparable],
    [IncomparableField] and [IsPaddedField], followed by the properties of
    the classification that the design document states. *)

From Stdlib Require Import ZArith List String Bool Lia.
Import ListNotations.
Local Open Scope Z_scope.

(** ** AlgKind *)

(** [type AlgKind int] with its constants. *)
Inductive AlgKind : Type :=
| ANOEQ | AMEM0 | AMEM8 | AMEM16 | AMEM32 | AMEM64 | AMEM128
| ASTRING | AINTER | ANILINTER
| AFLOAT32 | AFLOAT64 | ACPLX64 | ACPLX128
| ANOALG
| AMEM
| ASPECIAL.

(** The integer behind each constant: [iota] from [ANOEQ], then the two
    explicit values. *)
Definition AlgKind_value (a : AlgKind) : Z :=
  match a with
  | ANOEQ => 0 | AMEM0 => 1 | AMEM8 => 2 | AMEM16 => 3 | AMEM32 => 4
  | AMEM64 => 5 | AMEM128 => 6 | ASTRING => 7 | AINTER => 8
  | ANILINTER => 9 | AFLOAT32 => 10 | AFLOAT64 => 11 | ACPLX64 => 12
  | ACPLX128 => 13 | ANOALG => 14
  | AMEM => 100
  | ASPECIAL => -1
  end.

(** Go's [==] on two [AlgKind]s compares the integers. *)
Definition AlgKind_eqb (a b : AlgKind) : bool :=
  AlgKind_value a =? AlgKind_value b.

Declare Scope alg_scope.
Delimit Scope alg_scope with alg.
Infix "==" := AlgKind_eqb (at level 70, no associativity) : alg_scope.
Local Open Scope alg_scope.

(** ** Kinds, types and fields *)

(** Modelled from the spec: the [Kind] enumeration is declared outside
    alg.go.  The constructors are the kinds that the switch of [AlgType]
    names; [Tother n] stands for every kind value that the switch does not
    name. *)
Inductive Kind : Type :=
| TANY | TFORW
| TINT8 | TUINT8 | TINT16 | TUINT16
| TINT32 | TUINT32 | TINT64 | TUINT64
| TINT | TUINT | TUINTPTR
| TBOOL | TPTR
| TCHAN | TUNSAFEPTR
| TFUNC | TMAP
| TFLOAT32 | TFLOAT64
| TCOMPLEX64 | TCOMPLEX128
| TSTRING
| TINTER
| TSLICE
| TARRAY
| TSTRUCT
| Tother (n : nat).

(** Modelled from the spec: a field's [Sym] tells whether the field is the
    blank one; the symbol is its name and the blank field is named [_]. *)
Record Sym : Type := mkSym { Name : string }.

Definition Sym_IsBlank (s : Sym) : bool := String.eqb (Name s) "_"%string.

(** Modelled from the spec: [Type] and [Field] are declared outside alg.go.
    A type node has a kind, the Noalg flag, a width in bytes and a
    kind-specific payload: the element type and element count of an array,
    the ordered fields of a struct, the method set of an interface.  A field
    has its [Sym], its type and its byte offset in the struct. *)
Inductive Type_ : Type :=
| mkType (kind : Kind) (noalg : bool) (width : Z) (extra : Extra)
with Extra : Type :=
| NoExtra
| Interface (methods : list string)
| Array (Elem : Type_) (Bound : Z)
| Struct (fields : list Field)
with Field : Type :=
| mkField (sym : Sym) (type : Type_) (offset : Z).

Definition Type_Kind (t : Type_) : Kind :=
  match t with mkType k _ _ _ => k end.
Definition Type_Noalg (t : Type_) : bool :=
  match t with mkType _ n _ _ => n end.
Definition Type_width (t : Type_) : Z :=
  match t with mkType _ _ w _ => w end.
Definition Type_extra (t : Type_) : Extra :=
  match t with mkType _ _ _ e => e end.

Definition Field_Sym (f : Field) : Sym :=
  match f with mkField s _ _ => s end.
Definition Field_Type (f : Field) : Type_ :=
  match f with mkField _ t _ => t end.
Definition Field_Offset (f : Field) : Z :=
  match f with mkField _ _ o => o end.

(** Modelled from the spec: a field's end offset is its offset plus the
    width of its type. *)
Definition Field_End (f : Field) : Z :=
  Field_Offset f + Type_width (Field_Type f).

(** ** Outcomes *)

(** A call either returns, or ends the compilation through [base.Fatalf]
    (the message and the type it reports are kept), or hits a Go run-time
    panic: an accessor applied to a node whose payload is not the one of its
    kind, or a slice index out of range. *)
Inductive result (A : Type) : Type :=
| Ok (a : A)
| Fatalf (msg : string) (t : Type_)
| Panic.

Arguments Ok {A} a.
Arguments Fatalf {A} msg t.
Arguments Panic {A}.

Definition bind {A B : Type} (r : result A) (k : A -> result B) : result B :=
  match r with
  | Ok a => k a
  | Fatalf msg t => Fatalf msg t
  | Panic => Panic
  end.

Notation "x <- r ;; k" := (bind r (fun x => k))
  (at level 61, r at next level, right associativity).

(** ** Accessors of Type *)

(** Modelled from the spec: the accessors are declared outside alg.go; each
    reads the payload of its own kind. *)
Definition Type_IsStruct (t : Type_) : bool :=
  match Type_Kind t with TSTRUCT => true | _ => false end.

Definition Type_Fields (t : Type_) : result (list Field) :=
  match Type_extra t with Struct fs => Ok fs | _ => Panic end.

Definition Type_NumFields (t : Type_) : result Z :=
  fs <- Type_Fields t ;; Ok (Z.of_nat (List.length fs)).

(** [t.Field(i)] indexes the slice of fields. *)
Definition Type_Field (t : Type_) (i : Z) : result Field :=
  fs <- Type_Fields t ;;
  if i <? 0 then Panic
  else match nth_error fs (Z.to_nat i) with
       | Some f => Ok f
       | None => Panic
       end.

Definition Type_Elem (t : Type_) : result Type_ :=
  match Type_extra t with Array e _ => Ok e | _ => Panic end.

Definition Type_NumElem (t : Type_) : result Z :=
  match Type_extra t with Array _ n => Ok n | _ => Panic end.

Definition Type_IsEmptyInterface (t : Type_) : result bool :=
  match Type_extra t with
  | Interface ms => Ok (match ms with [] => true | _ => false end)
  | _ => Panic
  end.

(** ** IsPaddedField *)

Definition msg_IsPaddedField : string := "IsPaddedField called non-struct %v"%string.
Definition msg_AlgType : string := "AlgType: unexpected type %v"%string.

(** [IsPaddedField] reports whether the i'th field of struct type t is
    followed by padding.  The index is a Go [int]; at every index of the
    slice [i + 1] stays in range, and any other index ends in the same
    run-time panic with or without wrap-around. *)
Definition IsPaddedField (t : Type_) (i : Z) : result bool :=
  if negb (Type_IsStruct t) then Fatalf msg_IsPaddedField t
  else
    n <- Type_NumFields t ;;
    end_ <- (if i + 1 <? n
             then (f <- Type_Field t (i + 1) ;; Ok (Field_Offset f))
             else Ok (Type_width t)) ;;
    f <- Type_Field t i ;;
    Ok (negb (Field_End f =? end_)).

(** ** AlgType *)

(** The loop over the fields of struct [t]: [i] is the index of the head of
    [fs], [ret] the accumulator. *)
Definition scan_fields (alg : Type_ -> result AlgKind) (t : Type_)
  : list Field -> Z -> AlgKind -> result AlgKind :=
  fix loop (fs : list Field) (i : Z) (ret : AlgKind) : result AlgKind :=
    match fs with
    | [] => Ok ret
    | f :: rest =>
        a <- alg (Field_Type f) ;;
        if (a == ANOEQ) || (a == ANOALG) then Ok a
        else
          special <- (if negb (a == AMEM) || Sym_IsBlank (Field_Sym f)
                      then Ok true
                      else IsPaddedField t i) ;;
          loop rest (i + 1) (if special then ASPECIAL else ret)
    end.

(** [AlgType] returns the AlgKind used for comparing and hashing Type t.
    [base.Fatalf] does not return, so the [return 0] that follows it in the
    source is never run: a kind that the switch does not name ends in
    [Fatalf]. *)
Fixpoint AlgType (t : Type_) : result AlgKind :=
  match t with
  | mkType kind noalg _ extra =>
      if noalg then Ok ANOALG
      else
        match kind with
        | TANY | TFORW => Ok ANOEQ
        | TINT8 | TUINT8 | TINT16 | TUINT16
        | TINT32 | TUINT32 | TINT64 | TUINT64
        | TINT | TUINT | TUINTPTR
        | TBOOL | TPTR
        | TCHAN | TUNSAFEPTR => Ok AMEM
        | TFUNC | TMAP => Ok ANOEQ
        | TFLOAT32 => Ok AFLOAT32
        | TFLOAT64 => Ok AFLOAT64
        | TCOMPLEX64 => Ok ACPLX64
        | TCOMPLEX128 => Ok ACPLX128
        | TSTRING => Ok ASTRING
        | TINTER =>
            e <- Type_IsEmptyInterface t ;;
            if e then Ok ANILINTER else Ok AINTER
        | TSLICE => Ok ANOEQ
        | TARRAY =>
            match extra with
            | Array elem bound =>
                a <- AlgType elem ;;
                if (a == AMEM) || (a == ANOEQ) || (a == ANOALG) then Ok a
                else
                  match bound with
                  | 0 => Ok AMEM
                  | 1 => Ok a
                  | _ => Ok ASPECIAL
                  end
            | _ => Panic
            end
        | TSTRUCT =>
            match extra with
            | Struct fields =>
                match fields with
                | [f] =>
                    if negb (Sym_IsBlank (Field_Sym f))
                    then AlgType (Field_Type f)
                    else scan_fields AlgType t fields 0 AMEM
                | _ => scan_fields AlgType t fields 0 AMEM
                end
            | _ => Panic
            end
        | Tother _ => Fatalf msg_AlgType t
        end
  end.

(** [TypeHasNoAlg] reports whether t does not have any associated hash/eq
    algorithms because t, or some component of t, is marked Noalg. *)
Definition TypeHasNoAlg (t : Type_) : result bool :=
  a <- AlgType t ;; Ok (a == ANOALG).

(** [IsComparable] reports whether t is a comparable type. *)
Definition IsComparable (t : Type_) : result bool :=
  a <- AlgType t ;; Ok (negb (a == ANOEQ) && negb (a == ANOALG)).

Fixpoint first_incomparable (fs : list Field) : result (option Field) :=
  match fs with
  | [] => Ok None
  | f :: rest =>
      c <- IsComparable (Field_Type f) ;;
      if negb c then Ok (Some f) else first_incomparable rest
  end.

(** [IncomparableField] returns an incomparable Field of struct Type t, if
    any. *)
Definition IncomparableField (t : Type_) : result (option Field) :=
  fs <- Type_Fields t ;; first_incomparable fs.

(** ** Predicates of the statements *)

(** A tag that ends the scan of a struct and is handed up unchanged. *)
Definition noeq_or_noalg (a : AlgKind) : bool := (a == ANOEQ) || (a == ANOALG).

(** The tags that call for a routine aware of the values' meaning. *)
Definition semantics_aware (a : AlgKind) : bool :=
  match a with
  | ASTRING | AINTER | ANILINTER
  | AFLOAT32 | AFLOAT64 | ACPLX64 | ACPLX128 => true
  | _ => false
  end.

(** The offset at which the extent that follows field [i] ends, in the
    words of the design document: the offset of field [i+1] if it exists,
    else the total width of the struct. *)
Definition end_after (t : Type_) (i : Z) : Z :=
  match Type_Field t (i + 1) with
  | Ok g => Field_Offset g
  | _ => Type_width t
  end.

(** The field's type classifies, and not as ANOEQ or ANOALG. *)
Definition comparable_field (f : Field) : Prop :=
  exists a, AlgType (Field_Type f) = Ok a /\ a <> ANOEQ /\ a <> ANOALG.

(** What the scan asks of a field to leave the accumulator alone. *)
Definition plain_field (t : Type_) (i : nat) (f : Field) : Prop :=
  AlgType (Field_Type f) = Ok AMEM /\
  Sym_IsBlank (Field_Sym f) = false /\
  IsPaddedField t (Z.of_nat i) = Ok false.

(** The kinds that the switch of AlgType names. *)
Definition closed_kind (k : Kind) : bool :=
  match k with Tother _ => false | _ => true end.

(** The payload of every array, struct and interface node is the one of
    its kind, as the constructors of types build them. *)
Fixpoint well_formed (t : Type_) : bool :=
  match t with
  | mkType k _ _ ex =>
      match k with
      | TARRAY =>
          match ex with Array e _ => well_formed e | _ => false end
      | TSTRUCT =>
          match ex with
          | Struct fs => forallb (fun f => well_formed (Field_Type f)) fs
          | _ => false
          end
      | TINTER => match ex with Interface _ => true | _ => false end
      | _ => true
      end
  end.

(** Every node of the type has a kind that the switch names. *)
Fixpoint kinds_closed (t : Type_) : bool :=
  match t with
  | mkType k _ _ ex =>
      closed_kind k &&
      match ex with
      | Array e _ => kinds_closed e
      | Struct fs => forallb (fun f => kinds_closed (Field_Type f)) fs
      | _ => true
      end
  end.

(** [component u t]: [u] is [t] or is reached from [t] through array
    elements and struct fields. *)
Inductive component (u : Type_) : Type_ -> Prop :=
| component_self : component u u
| component_Elem (t e : Type_) :
    Type_Elem t = Ok e -> component u e -> component u t
| component_Field (t : Type_) (fs : list Field) (f : Field) :
    Type_Fields t = Ok fs -> In f fs ->
    component u (Field_Type f) -> component u t.

(** The outcome [r] of classifying [t] is a tag, or the abort of AlgType
    on a component of [t] whose Noalg flag is unset and whose kind the
    switch does not name. *)
Definition tag_or_abort (r : result AlgKind) (t : Type_) : Prop :=
  (exists a, r = Ok a) \/
  (exists u, r = Fatalf msg_AlgType u /\ component u t /\
             Type_Noalg u = false /\ closed_kind (Type_Kind u) = false).

(** The tags that AlgType hands out: all but the fixed-width memory
    tags. *)
Definition produced_tag (a : AlgKind) : bool :=
  match a with
  | AMEM0 | AMEM8 | AMEM16 | AMEM32 | AMEM64 | AMEM128 => false
  | _ => true
  end.

(** The kinds that the switch sends to ANOEQ without looking further. *)
Definition noeq_kind (k : Kind) : bool :=
  match k with
  | TANY | TFORW | TFUNC | TMAP | TSLICE => true
  | _ => false
  end.

(** The widths of the field types, added up. *)
Definition sum_widths (fs : list Field) : Z :=
  fold_right (fun f acc => Type_width (Field_Type f) + acc) 0 fs.

(** [part u t]: [u] is [t], or is reached from [t] through the element of
    a node of kind array and the field types of a node of kind struct: the
    types whose values lie inside a value of [t]. *)
Inductive part (u : Type_) : Type_ -> Prop :=
| part_self : part u u
| part_Elem (t e : Type_) :
    Type_Kind t = TARRAY -> Type_Elem t = Ok e -> part u e -> part u t
| part_Field (t : Type_) (fs : list Field) (f : Field) :
    Type_Kind t = TSTRUCT -> Type_Fields t = Ok fs -> In f fs ->
    part u (Field_Type f) -> part u t.

(** ** Sample types *)

Definition prim (k : Kind) (w : Z) : Type_ := mkType k false w NoExtra.
Definition named (s : string) : Sym := mkSym s.
Definition blank : Sym := mkSym "_"%string.

Definition t_int8 : Type_ := prim TINT8 1.
Definition t_int32 : Type_ := prim TINT32 4.
Definition t_int64 : Type_ := prim TINT64 8.
Definition t_float32 : Type_ := prim TFLOAT32 4.
Definition t_float64 : Type_ := prim TFLOAT64 8.
Definition t_map : Type_ := prim TMAP 8.
Definition t_string : Type_ := prim TSTRING 16.
Definition t_noalg_int32 : Type_ := mkType TINT32 true 4 NoExtra.

Definition array_of (e : Type_) (n : Z) : Type_ :=
  mkType TARRAY false (n * Type_width e) (Array e n).
Definition struct_of (w : Z) (fs : list Field) : Type_ :=
  mkType TSTRUCT false w (Struct fs).

(** struct{ a int8; b int32 } as laid out: three bytes of padding after a. *)
Definition t_gap : Type_ :=
  struct_of 8 [mkField (named "a") t_int8 0; mkField (named "b") t_int32 4].

(** struct{ a int32; b int32 }, contiguous. *)
Definition t_pair : Type_ :=
  struct_of 8 [mkField (named "a") t_int32 0; mkField (named "b") t_int32 4].

(** struct{ a int32; m map; b int32 }. *)
Definition t_with_map : Type_ :=
  struct_of 24 [mkField (named "a") t_int32 0; mkField (named "m") t_map 8;
                mkField (named "b") t_int32 16].

(** struct{ m map; x T } where T is marked Noalg. *)
Definition t_map_then_noalg : Type_ :=
  struct_of 16 [mkField (named "m") t_map 0;
                mkField (named "x") t_noalg_int32 8].

(** struct{ a int32; x T } where T is marked Noalg. *)
Definition t_int_then_noalg : Type_ :=
  struct_of 8 [mkField (named "a") t_int32 0;
               mkField (named "x") t_noalg_int32 4].

(** * Properties *)

(** ** The scenarios of the design document *)

Example primitive_kinds_are_AMEM :
  map AlgType [t_int8; t_int32; t_int64; prim TBOOL 1; prim TPTR 8;
               prim TCHAN 8; prim TUNSAFEPTR 8; prim TUINTPTR 8]
  = repeat (Ok AMEM) 8.
Proof. reflexivity. Qed.

Example map_func_slice_are_ANOEQ :
  map AlgType [t_map; prim TFUNC 8; prim TSLICE 24] = repeat (Ok ANOEQ) 3 /\
  map IsComparable [t_map; prim TFUNC 8; prim TSLICE 24]
  = repeat (Ok false) 3.
Proof. split; reflexivity. Qed.

Example array_scenarios :
  AlgType (array_of t_float64 1) = Ok AFLOAT64 /\
  AlgType (array_of t_float64 2) = Ok ASPECIAL /\
  AlgType (array_of t_string 2) = Ok ASPECIAL /\
  AlgType (array_of t_int32 5) = Ok AMEM /\
  AlgType (array_of t_gap 0) = Ok AMEM.
Proof. repeat split; reflexivity. Qed.

Example struct_scenarios :
  AlgType (struct_of 4 [mkField (named "x") t_float32 0]) = Ok AFLOAT32 /\
  AlgType t_pair = Ok AMEM /\
  AlgType t_gap = Ok ASPECIAL /\
  AlgType t_with_map = Ok ANOEQ /\
  AlgType (struct_of 4 [mkField blank t_int32 0]) = Ok ASPECIAL /\
  AlgType t_int_then_noalg = Ok ANOALG.
Proof. repeat split; vm_compute; reflexivity. Qed.

Example IncomparableField_scenarios :
  IncomparableField t_pair = Ok None /\
  IncomparableField t_with_map = Ok (Some (mkField (named "m") t_map 8)).
Proof. split; reflexivity. Qed.

(** ** Equality of AlgKinds *)

Lemma AlgKind_value_inj (a b : AlgKind) :
  AlgKind_value a = AlgKind_value b -> a = b.
Proof. destruct a, b; simpl; intros H; try reflexivity; discriminate H. Qed.

Lemma AlgKind_eqb_eq (a b : AlgKind) : (a == b) = true <-> a = b.
Proof.
  unfold AlgKind_eqb. rewrite Z.eqb_eq. split.
  - apply AlgKind_value_inj.
  - intros ->. reflexivity.
Qed.

Lemma AlgKind_eqb_neq (a b : AlgKind) : (a == b) = false <-> a <> b.
Proof.
  rewrite <- AlgKind_eqb_eq. destruct (a == b); split; intros H;
    try reflexivity; try discriminate; try (intros H'; discriminate H').
  exfalso. apply H. reflexivity.
Qed.

Lemma AlgKind_eq_dec (a b : AlgKind) : {a = b} + {a <> b}.
Proof.
  destruct (a == b) eqn:E.
  - left. apply AlgKind_eqb_eq. exact E.
  - right. apply AlgKind_eqb_neq. exact E.
Qed.

Lemma noeq_or_noalg_true (a : AlgKind) :
  noeq_or_noalg a = true <-> a = ANOEQ \/ a = ANOALG.
Proof.
  unfold noeq_or_noalg. rewrite orb_true_iff, !AlgKind_eqb_eq. tauto.
Qed.

Lemma noeq_or_noalg_false (a : AlgKind) :
  noeq_or_noalg a = false <-> a <> ANOEQ /\ a <> ANOALG.
Proof.
  unfold noeq_or_noalg. rewrite orb_false_iff, !AlgKind_eqb_neq. tauto.
Qed.

(** ** Equations of AlgType *)

Lemma AlgType_Noalg (t : Type_) :
  Type_Noalg t = true -> AlgType t = Ok ANOALG.
Proof. destruct t as [k n w e]; simpl. intros ->. reflexivity. Qed.

Lemma AlgType_array (t e : Type_) (n : Z) :
  Type_Noalg t = false -> Type_Kind t = TARRAY ->
  Type_Elem t = Ok e -> Type_NumElem t = Ok n ->
  AlgType t =
    (a <- AlgType e ;;
     if (a == AMEM) || (a == ANOEQ) || (a == ANOALG) then Ok a
     else match n with 0 => Ok AMEM | 1 => Ok a | _ => Ok ASPECIAL end).
Proof.
  destruct t as [k na w ex]; simpl. intros -> ->.
  unfold Type_Elem, Type_NumElem; simpl.
  destruct ex; try discriminate. intros He Hn.
  injection He as ->. injection Hn as ->. reflexivity.
Qed.

Lemma AlgType_struct (t : Type_) (fs : list Field) :
  Type_Noalg t = false -> Type_Kind t = TSTRUCT -> Type_Fields t = Ok fs ->
  AlgType t =
    match fs with
    | [f] => if negb (Sym_IsBlank (Field_Sym f))
             then AlgType (Field_Type f)
             else scan_fields AlgType t fs 0 AMEM
    | _ => scan_fields AlgType t fs 0 AMEM
    end.
Proof.
  destruct t as [k na w ex]; simpl. intros -> ->.
  unfold Type_Fields; simpl.
  destruct ex; try discriminate. intros H. injection H as ->. reflexivity.
Qed.

(** ** The Noalg flag *)

(** C10. The Noalg check comes before the switch on the kind: a type whose
    Noalg flag is set classifies as ANOALG whatever its kind and payload are,
    also for a kind the switch does not name, and base.Fatalf is not
    reached. *)
Theorem AlgType_Noalg_before_Kind (t : Type_) :
  Type_Noalg t = true ->
  AlgType t = Ok ANOALG /\
  (forall msg t', AlgType t <> Fatalf msg t') /\
  (forall k w e, AlgType (mkType k true w e) = Ok ANOALG).
Proof.
  intros H. rewrite (AlgType_Noalg t H). split; [reflexivity|]. split.
  - intros msg t' Hf. discriminate Hf.
  - intros k w e. reflexivity.
Qed.

Lemma AlgType_Noalg_before_Kind_witness :
  AlgType (mkType (Tother 7) true 0 NoExtra) = Ok ANOALG.
Proof.
  apply (AlgType_Noalg_before_Kind (mkType (Tother 7) true 0 NoExtra)).
  reflexivity.
Defined.

(** ** Arrays *)

Section ArrayType.
Variables (t e : Type_) (n : Z).
Hypothesis Hnoalg : Type_Noalg t = false.
Hypothesis Hkind : Type_Kind t = TARRAY.
Hypothesis Helem : Type_Elem t = Ok e.
Hypothesis Hnum : Type_NumElem t = Ok n.

Lemma AlgType_array_propagate (a : AlgKind) :
  AlgType e = Ok a -> a = AMEM \/ a = ANOEQ \/ a = ANOALG ->
  AlgType t = Ok a.
Proof.
  intros Ha Hcase. rewrite (AlgType_array t e n Hnoalg Hkind Helem Hnum).
  rewrite Ha; simpl.
  destruct Hcase as [-> | [-> | ->]]; reflexivity.
Qed.

Lemma AlgType_array_other (a : AlgKind) :
  AlgType e = Ok a -> a <> AMEM -> a <> ANOEQ -> a <> ANOALG ->
  AlgType t = match n with 0 => Ok AMEM | 1 => Ok a | _ => Ok ASPECIAL end.
Proof.
  intros Ha H1 H2 H3. rewrite (AlgType_array t e n Hnoalg Hkind Helem Hnum).
  rewrite Ha; simpl.
  apply AlgKind_eqb_neq in H1, H2, H3. rewrite H1, H2, H3. reflexivity.
Qed.

Lemma AlgType_array_abort :
  (forall a, AlgType e <> Ok a) -> AlgType t = AlgType e.
Proof.
  intros Ha. rewrite (AlgType_array t e n Hnoalg Hkind Helem Hnum).
  destruct (AlgType e) as [a| |]; simpl; try reflexivity.
  exfalso. apply (Ha a). reflexivity.
Qed.
End ArrayType.

(** C1, as the code has it.  An array of 0 elements whose Noalg flag is
    not set classifies as AMEM whenever its element classifies as a tag
    other than ANOEQ and ANOALG (so also for an ASPECIAL element); when the
    element classifies as ANOEQ or ANOALG the array gets the element's tag. *)
Theorem AlgType_array_zero (t e : Type_) (a : AlgKind) :
  Type_Noalg t = false -> Type_Kind t = TARRAY ->
  Type_Elem t = Ok e -> Type_NumElem t = Ok 0 ->
  AlgType e = Ok a ->
  (a <> ANOEQ -> a <> ANOALG -> AlgType t = Ok AMEM) /\
  (a = ASPECIAL -> AlgType t = Ok AMEM) /\
  (a = ANOEQ \/ a = ANOALG -> AlgType t = Ok a).
Proof.
  intros Hn Hk He Hz Ha.
  assert (Hmain : a <> ANOEQ -> a <> ANOALG -> AlgType t = Ok AMEM).
  { intros H1 H2. destruct (AlgKind_eq_dec a AMEM) as [-> | Hm].
    - apply (AlgType_array_propagate t e 0 Hn Hk He Hz AMEM Ha). auto.
    - apply (AlgType_array_other t e 0 Hn Hk He Hz a Ha Hm H1 H2). }
  split; [exact Hmain|]. split.
  - intros ->. apply Hmain; discriminate.
  - intros Hc. apply (AlgType_array_propagate t e 0 Hn Hk He Hz a Ha). tauto.
Qed.

Lemma AlgType_array_zero_witness :
  AlgType (array_of t_gap 0) = Ok AMEM.
Proof.
  apply (proj1 (proj2 (AlgType_array_zero (array_of t_gap 0) t_gap ASPECIAL
                         eq_refl eq_refl eq_refl eq_refl eq_refl))).
  reflexivity.
Defined.

(** C1 as stated fails: an array of 0 maps has its Noalg flag unset and
    element count 0, its element classifies as ANOEQ, and the array
    classifies as ANOEQ, not AMEM. *)
Lemma AlgType_array_zero_not_always_AMEM :
  ~ (forall t : Type_,
        Type_Noalg t = false -> Type_Kind t = TARRAY ->
        Type_NumElem t = Ok 0 -> AlgType t = Ok AMEM).
Proof.
  intros H.
  specialize (H (array_of t_map 0) eq_refl eq_refl eq_refl).
  vm_compute in H. discriminate H.
Qed.

(** An array of one element classifies as its element does, whatever the
    element's outcome is. *)
Lemma AlgType_array_one (t e : Type_) :
  Type_Noalg t = false -> Type_Kind t = TARRAY ->
  Type_Elem t = Ok e -> Type_NumElem t = Ok 1 ->
  AlgType t = AlgType e.
Proof.
  intros Hn Hk He H1. rewrite (AlgType_array t e 1 Hn Hk He H1).
  destruct (AlgType e) as [a| |]; simpl; try reflexivity.
  destruct ((a == AMEM) || (a == ANOEQ) || (a == ANOALG)); reflexivity.
Qed.

(** C6. A struct whose Noalg flag is not set and that has exactly one
    field, not blank, classifies exactly as that field's type; an array
    whose Noalg flag is not set, of element count 1, whose element
    classifies as one of the semantics-aware tags, classifies as its
    element. *)
Theorem AlgType_single_component (t : Type_) :
  Type_Noalg t = false ->
  (forall f, Type_Kind t = TSTRUCT -> Type_Fields t = Ok [f] ->
             Sym_IsBlank (Field_Sym f) = false ->
             AlgType t = AlgType (Field_Type f)) /\
  (forall e a, Type_Kind t = TARRAY -> Type_Elem t = Ok e ->
               Type_NumElem t = Ok 1 ->
               AlgType e = Ok a -> semantics_aware a = true ->
               AlgType t = Ok a).
Proof.
  intros Hn. split.
  - intros f Hk Hf Hb. rewrite (AlgType_struct t [f] Hn Hk Hf).
    rewrite Hb. reflexivity.
  - intros e a Hk He H1 Ha _.
    rewrite (AlgType_array_one t e Hn Hk He H1). exact Ha.
Qed.

Lemma AlgType_single_component_witness :
  AlgType (struct_of 4 [mkField (named "x") t_float32 0]) = Ok AFLOAT32 /\
  AlgType (array_of t_float64 1) = Ok AFLOAT64.
Proof.
  split.
  - apply (proj1 (AlgType_single_component
                    (struct_of 4 [mkField (named "x") t_float32 0]) eq_refl)
             (mkField (named "x") t_float32 0));
      reflexivity.
  - apply (proj2 (AlgType_single_component (array_of t_float64 1) eq_refl)
             t_float64 AFLOAT64);
      reflexivity.
Defined.

(** ** Derived predicates *)

(** C7. TypeHasNoAlg is true exactly when AlgType is ANOALG, and
    IsComparable is true exactly when AlgType is a tag other than ANOEQ and
    ANOALG; so a type classified ASPECIAL is comparable.  Both return
    whenever AlgType does. *)
Theorem derived_predicates_agree (t : Type_) :
  (TypeHasNoAlg t = Ok true <-> AlgType t = Ok ANOALG) /\
  (TypeHasNoAlg t = Ok false <->
     exists a, AlgType t = Ok a /\ a <> ANOALG) /\
  (IsComparable t = Ok true <->
     exists a, AlgType t = Ok a /\ a <> ANOEQ /\ a <> ANOALG) /\
  (IsComparable t = Ok false <->
     AlgType t = Ok ANOEQ \/ AlgType t = Ok ANOALG) /\
  (AlgType t = Ok ASPECIAL -> IsComparable t = Ok true).
Proof.
  unfold TypeHasNoAlg, IsComparable.
  destruct (AlgType t) as [a| |]; simpl.
  - repeat split.
    + intros H. injection H as H. apply AlgKind_eqb_eq in H. now subst.
    + intros H. injection H as ->. reflexivity.
    + intros H. injection H as H. exists a. split; [reflexivity|].
      apply AlgKind_eqb_neq. exact H.
    + intros [b [Hb Hne]]. injection Hb as ->.
      apply AlgKind_eqb_neq in Hne. rewrite Hne. reflexivity.
    + intros H. injection H as H. exists a. split; [reflexivity|].
      apply andb_true_iff in H. destruct H as [H1 H2].
      apply negb_true_iff in H1, H2.
      split; apply AlgKind_eqb_neq; assumption.
    + intros [b [Hb [H1 H2]]]. injection Hb as ->.
      apply AlgKind_eqb_neq in H1, H2. rewrite H1, H2. reflexivity.
    + intros H. injection H as H. apply andb_false_iff in H.
      destruct H as [H | H]; apply negb_false_iff, AlgKind_eqb_eq in H;
        subst; auto.
    + intros [H | H]; injection H as ->; reflexivity.
    + intros H. injection H as ->. reflexivity.
  - repeat split; try discriminate.
    + intros [b [Hb _]]. discriminate Hb.
    + intros [b [Hb _]]. discriminate Hb.
    + intros [H | H]; discriminate H.
  - repeat split; try discriminate.
    + intros [b [Hb _]]. discriminate Hb.
    + intros [b [Hb _]]. discriminate Hb.
    + intros [H | H]; discriminate H.
Qed.

Lemma derived_predicates_agree_witness :
  IsComparable t_gap = Ok true.
Proof.
  apply (proj2 (proj2 (proj2 (proj2 (derived_predicates_agree t_gap))))).
  reflexivity.
Defined.

(** ** Structs: fields and padding *)

Lemma Type_IsStruct_Kind (t : Type_) :
  Type_IsStruct t = true <-> Type_Kind t = TSTRUCT.
Proof.
  unfold Type_IsStruct. destruct (Type_Kind t); split; intros H;
    try reflexivity; discriminate H.
Qed.

Lemma Type_Field_nth (t : Type_) (fs : list Field) (i : nat) :
  Type_Fields t = Ok fs ->
  Type_Field t (Z.of_nat i) =
    match nth_error fs i with Some f => Ok f | None => Panic end.
Proof.
  intros H. unfold Type_Field. rewrite H; simpl.
  destruct (Z.of_nat i <? 0) eqn:E.
  - apply Z.ltb_lt in E. lia.
  - rewrite Nat2Z.id. reflexivity.
Qed.

(** [t.Field(i)] returns exactly at the indices of the slice. *)
Lemma Type_Field_Ok (t : Type_) (fs : list Field) (i : Z) (f : Field) :
  Type_Fields t = Ok fs ->
  (Type_Field t i = Ok f <->
   0 <= i /\ nth_error fs (Z.to_nat i) = Some f).
Proof.
  intros H. unfold Type_Field. rewrite H; simpl.
  destruct (i <? 0) eqn:E.
  - apply Z.ltb_lt in E. split; [discriminate | lia].
  - apply Z.ltb_ge in E.
    destruct (nth_error fs (Z.to_nat i)) as [g|]; split.
    + intros Hg. injection Hg as ->. auto.
    + intros [_ Hg]. injection Hg as ->. reflexivity.
    + discriminate.
    + intros [_ Hg]. discriminate Hg.
Qed.

Lemma IsPaddedField_nth (t : Type_) (fs : list Field) (i : nat) (f : Field) :
  Type_Kind t = TSTRUCT -> Type_Fields t = Ok fs ->
  nth_error fs i = Some f ->
  IsPaddedField t (Z.of_nat i) =
    Ok (negb (Field_End f =? end_after t (Z.of_nat i))).
Proof.
  intros Hk Hf Hi. unfold IsPaddedField, end_after.
  apply Type_IsStruct_Kind in Hk. rewrite Hk; simpl.
  unfold Type_NumFields. rewrite Hf; simpl.
  replace (Z.of_nat i + 1) with (Z.of_nat (S i)) by lia.
  rewrite !(Type_Field_nth t fs _ Hf), Hi.
  destruct (nth_error fs (S i)) as [g|] eqn:Eg.
  - assert (Hlt : (S i < List.length fs)%nat)
      by (apply nth_error_Some; rewrite Eg; discriminate).
    destruct (Z.of_nat (S i) <? Z.of_nat (List.length fs)) eqn:E.
    + reflexivity.
    + apply Z.ltb_ge in E. lia.
  - apply nth_error_None in Eg.
    destruct (Z.of_nat (S i) <? Z.of_nat (List.length fs)) eqn:E.
    + apply Z.ltb_lt in E. lia.
    + reflexivity.
Qed.

(** On a struct and a valid field index IsPaddedField returns, and reports
    whether the end offset of field i differs from [end]. *)
Lemma IsPaddedField_end_after (t : Type_) (i : Z) (f : Field) :
  Type_IsStruct t = true -> Type_Field t i = Ok f ->
  IsPaddedField t i = Ok (negb (Field_End f =? end_after t i)).
Proof.
  intros Hs Hf.
  assert (Hfs : exists fs, Type_Fields t = Ok fs).
  { unfold Type_Field in Hf. destruct (Type_Fields t) as [fs| |];
      try discriminate Hf. exists fs. reflexivity. }
  destruct Hfs as [fs Hfs].
  apply (Type_Field_Ok t fs i f Hfs) in Hf. destruct Hf as [H0 Hn].
  apply Type_IsStruct_Kind in Hs.
  pose proof (IsPaddedField_nth t fs (Z.to_nat i) f Hs Hfs Hn) as Hp.
  rewrite Z2Nat.id in Hp by exact H0. exact Hp.
Qed.

(** C2. On a laid-out struct, where field i does not reach beyond [end]
    (the offset of field i+1 if there is one, the width of the struct
    otherwise), and at a valid field index i, IsPaddedField returns and
    reports padding if and only if the end offset of field i, its offset
    plus the width of its type, is strictly less than [end]. *)
Theorem IsPaddedField_iff_strictly_less (t : Type_) (i : Z) (f : Field) :
  Type_IsStruct t = true -> Type_Field t i = Ok f ->
  Field_End f <= end_after t i ->
  IsPaddedField t i = Ok (Field_End f <? end_after t i) /\
  (IsPaddedField t i = Ok true <-> Field_End f < end_after t i) /\
  (IsPaddedField t i = Ok false <-> ~ Field_End f < end_after t i).
Proof.
  intros Hs Hf Hle.
  assert (Hp : IsPaddedField t i = Ok (Field_End f <? end_after t i)).
  { rewrite (IsPaddedField_end_after t i f Hs Hf). f_equal.
    destruct (Field_End f =? end_after t i) eqn:E1;
      destruct (Field_End f <? end_after t i) eqn:E2; simpl;
      try reflexivity.
    - apply Z.eqb_eq in E1. apply Z.ltb_lt in E2. lia.
    - apply Z.eqb_neq in E1. apply Z.ltb_ge in E2. lia. }
  split; [exact Hp|]. rewrite Hp.
  destruct (Field_End f <? end_after t i) eqn:E.
  - apply Z.ltb_lt in E. split; split; intros H;
      try reflexivity; try exact E; try discriminate H.
    exfalso. apply H. exact E.
  - apply Z.ltb_ge in E. split; split; intros H;
      try reflexivity; try discriminate H; lia.
Qed.

Lemma IsPaddedField_iff_strictly_less_witness :
  IsPaddedField t_gap 0 = Ok true /\ IsPaddedField t_gap 1 = Ok false.
Proof.
  split.
  - apply (proj1 (IsPaddedField_iff_strictly_less t_gap 0
                    (mkField (named "a") t_int8 0) eq_refl eq_refl
                    ltac:(vm_compute; discriminate))).
  - apply (proj1 (IsPaddedField_iff_strictly_less t_gap 1
                    (mkField (named "b") t_int32 4) eq_refl eq_refl
                    ltac:(vm_compute; discriminate))).
Defined.

(** ** Structs: the scan of the fields *)

Lemma skipn_cons_inv {A : Type} (l : list A) (n : nat) (x : A) (r : list A) :
  skipn n l = x :: r -> nth_error l n = Some x /\ skipn (S n) l = r.
Proof.
  revert n. induction l as [|y l IH]; intros n H.
  - destruct n; discriminate H.
  - destruct n as [|n]; simpl in *.
    + injection H as -> ->. auto.
    + apply IH in H. destruct H as [H1 H2]. split; [exact H1|].
      destruct l; [destruct n; exact H2 | exact H2].
Qed.

Section StructScan.
Variables (t : Type_) (fs : list Field).
Hypothesis Hkind : Type_Kind t = TSTRUCT.
Hypothesis Hfields : Type_Fields t = Ok fs.

Lemma scan_fields_stop (f : Field) (rest : list Field) (i : Z)
      (ret a : AlgKind) :
  AlgType (Field_Type f) = Ok a -> a = ANOEQ \/ a = ANOALG ->
  scan_fields AlgType t (f :: rest) i ret = Ok a.
Proof.
  intros Ha Hc. simpl. rewrite Ha; simpl.
  apply noeq_or_noalg_true in Hc. unfold noeq_or_noalg in Hc.
  rewrite Hc. reflexivity.
Qed.

Lemma scan_fields_step (f : Field) (rest : list Field) (i : nat)
      (ret a : AlgKind) :
  nth_error fs i = Some f ->
  AlgType (Field_Type f) = Ok a -> a <> ANOEQ -> a <> ANOALG ->
  exists special : bool,
    (special = false <-> plain_field t i f) /\
    scan_fields AlgType t (f :: rest) (Z.of_nat i) ret =
      scan_fields AlgType t rest (Z.of_nat (S i))
                  (if special then ASPECIAL else ret).
Proof.
  intros Hi Ha H1 H2. simpl. rewrite Ha; simpl.
  apply AlgKind_eqb_neq in H1, H2. rewrite H1, H2; simpl.
  replace (Z.of_nat i + 1) with (Z.of_nat (S i)) by lia.
  unfold plain_field. rewrite Ha.
  rewrite (IsPaddedField_nth t fs i f Hkind Hfields Hi).
  destruct (a == AMEM) eqn:Em; simpl.
  - apply AlgKind_eqb_eq in Em. subst a.
    destruct (Sym_IsBlank (Field_Sym f)); simpl.
    + exists true. split; [|reflexivity].
      split; [discriminate | intros [_ [Hb _]]; discriminate Hb].
    + exists (negb (Field_End f =? end_after t (Z.of_nat i))).
      split; [|reflexivity].
      split; [intros ->; auto | intros [_ [_ Hp]]; congruence].
  - exists true. split; [|reflexivity].
    split; [discriminate|]. intros [Hm _]. injection Hm as ->.
    discriminate Em.
Qed.

(** The scan stops at the first field that classifies as ANOEQ or
    ANOALG and returns that field's tag. *)
Lemma scan_fields_first (pre : list Field) (f : Field) (post : list Field)
      (a : AlgKind) :
  Forall comparable_field pre ->
  AlgType (Field_Type f) = Ok a -> a = ANOEQ \/ a = ANOALG ->
  forall (i : nat) (ret : AlgKind),
    skipn i fs = pre ++ f :: post ->
    scan_fields AlgType t (pre ++ f :: post) (Z.of_nat i) ret = Ok a.
Proof.
  intros Hpre Ha Hc. induction Hpre as [|g pre Hg Hpre IH]; intros i ret Hs.
  - apply (scan_fields_stop f post _ ret a Ha Hc).
  - apply skipn_cons_inv in Hs. destruct Hs as [Hi Hs].
    destruct Hg as [b [Hb [Hb1 Hb2]]].
    destruct (scan_fields_step g (pre ++ f :: post) i ret b Hi Hb Hb1 Hb2)
      as [sp [_ Heq]].
    change ((g :: pre) ++ f :: post) with (g :: (pre ++ f :: post)).
    rewrite Heq. apply IH. exact Hs.
Qed.

(** When every field classifies as a tag other than ANOEQ and ANOALG
    the scan returns the accumulator, turned to ASPECIAL exactly when
    some field is not plain. *)
Lemma scan_fields_all (l : list Field) :
  Forall comparable_field l ->
  forall (i : nat) (ret : AlgKind),
    skipn i fs = l ->
    (scan_fields AlgType t l (Z.of_nat i) ret = Ok ret /\
     forall j f, nth_error l j = Some f -> plain_field t (i + j) f) \/
    (scan_fields AlgType t l (Z.of_nat i) ret = Ok ASPECIAL /\
     exists j f, nth_error l j = Some f /\ ~ plain_field t (i + j) f).
Proof.
  intros Hl. induction Hl as [|g l Hg Hl IH]; intros i ret Hs.
  - left. split; [reflexivity|]. intros [|j] f H; discriminate H.
  - apply skipn_cons_inv in Hs. destruct Hs as [Hi Hs].
    destruct Hg as [b [Hb [Hb1 Hb2]]].
    destruct (scan_fields_step g l i ret b Hi Hb Hb1 Hb2)
      as [sp [Hsp Heq]].
    rewrite Heq.
    destruct (IH (S i) (if sp then ASPECIAL else ret) Hs)
      as [[Hr Hall] | [Hr [j [f [Hj Hnp]]]]].
    + destruct sp.
      * right. split; [exact Hr|]. exists 0%nat, g. split; [reflexivity|].
        rewrite Nat.add_0_r. intros Hp. apply Hsp in Hp. discriminate Hp.
      * left. split; [exact Hr|]. intros [|j] f Hj.
        -- injection Hj as <-. rewrite Nat.add_0_r. apply Hsp. reflexivity.
        -- replace (i + S j)%nat with (S i + j)%nat by lia.
           apply Hall. exact Hj.
    + right. split; [exact Hr|]. exists (S j), f. split; [exact Hj|].
      replace (i + S j)%nat with (S i + j)%nat by lia. exact Hnp.
Qed.
End StructScan.

(** A struct whose Noalg flag is not set classifies as the first of its
    fields that classifies as ANOEQ or ANOALG does. *)
Lemma AlgType_struct_first (t : Type_) (pre : list Field) (f : Field)
      (post : list Field) (a : AlgKind) :
  Type_Noalg t = false -> Type_Kind t = TSTRUCT ->
  Type_Fields t = Ok (pre ++ f :: post) ->
  Forall comparable_field pre ->
  AlgType (Field_Type f) = Ok a -> a = ANOEQ \/ a = ANOALG ->
  AlgType t = Ok a.
Proof.
  intros Hn Hk Hf Hpre Ha Hc.
  pose proof (scan_fields_first t (pre ++ f :: post) Hk Hf pre f post a
                Hpre Ha Hc 0%nat AMEM eq_refl) as Hscan.
  simpl in Hscan.
  rewrite (AlgType_struct t _ Hn Hk Hf).
  destruct pre as [|g [|h pre]]; [destruct post as [|p post]| |];
    simpl in *; try exact Hscan.
  destruct (Sym_IsBlank (Field_Sym f)); simpl; [exact Hscan | exact Ha].
Qed.

(** C4. A struct whose Noalg flag is not set and one of whose fields
    classifies as ANOEQ or ANOALG classifies as the first such field in
    declaration order does (the fields before it classifying as other
    tags), whatever the fields after it and the width of the struct are. *)
Theorem AlgType_struct_short_circuit (t : Type_) (pre : list Field)
        (f : Field) (post : list Field) (a : AlgKind) :
  Type_Noalg t = false -> Type_Kind t = TSTRUCT ->
  Type_Fields t = Ok (pre ++ f :: post) ->
  Forall comparable_field pre ->
  AlgType (Field_Type f) = Ok a -> a = ANOEQ \/ a = ANOALG ->
  AlgType t = Ok a /\
  (forall (w' : Z) (post' : list Field),
      AlgType (mkType TSTRUCT false w' (Struct (pre ++ f :: post'))) = Ok a).
Proof.
  intros Hn Hk Hf Hpre Ha Hc. split.
  - apply (AlgType_struct_first t pre f post a); assumption.
  - intros w' post'.
    apply (AlgType_struct_first _ pre f post' a); auto.
Qed.

Lemma AlgType_struct_short_circuit_witness :
  AlgType t_with_map = Ok ANOEQ.
Proof.
  apply (AlgType_struct_short_circuit t_with_map
           [mkField (named "a") t_int32 0] (mkField (named "m") t_map 8)
           [mkField (named "b") t_int32 16] ANOEQ eq_refl eq_refl eq_refl).
  - constructor; [|constructor].
    exists AMEM. repeat split; discriminate.
  - reflexivity.
  - left. reflexivity.
Defined.

Lemma gap_not_plain (t : Type_) (fs : list Field) (i : nat) (f g : Field) :
  Type_Kind t = TSTRUCT -> Type_Fields t = Ok fs ->
  nth_error fs i = Some f -> nth_error fs (S i) = Some g ->
  Field_End f < Field_Offset g ->
  ~ plain_field t i f.
Proof.
  intros Hk Hf Hi Hg Hlt [_ [_ Hp]].
  rewrite (IsPaddedField_nth t fs i f Hk Hf Hi) in Hp.
  unfold end_after in Hp.
  replace (Z.of_nat i + 1) with (Z.of_nat (S i)) in Hp by lia.
  rewrite (Type_Field_nth t fs (S i) Hf), Hg in Hp.
  injection Hp as Hp. apply negb_false_iff, Z.eqb_eq in Hp. lia.
Qed.

(** C5. For a struct whose Noalg flag is not set, that is not the struct
    of one field that is not blank, and all of whose fields classify as
    tags other than ANOEQ and ANOALG: AlgType is AMEM if every field
    classifies as AMEM, is not blank and is not followed by padding, and
    ASPECIAL otherwise; so a byte gap between two consecutive fields makes
    the struct ASPECIAL. *)
Theorem AlgType_struct_AMEM_or_ASPECIAL (t : Type_) (fs : list Field) :
  Type_Noalg t = false -> Type_Kind t = TSTRUCT -> Type_Fields t = Ok fs ->
  ~ (exists f, fs = [f] /\ Sym_IsBlank (Field_Sym f) = false) ->
  Forall comparable_field fs ->
  ((forall i f, nth_error fs i = Some f -> plain_field t i f) ->
   AlgType t = Ok AMEM) /\
  (~ (forall i f, nth_error fs i = Some f -> plain_field t i f) ->
   AlgType t = Ok ASPECIAL) /\
  (forall i f g,
      nth_error fs i = Some f -> nth_error fs (S i) = Some g ->
      Field_End f < Field_Offset g ->
      AlgType t = Ok ASPECIAL).
Proof.
  intros Hn Hk Hf Hone Hall.
  assert (Hscan : AlgType t = scan_fields AlgType t fs 0 AMEM).
  { rewrite (AlgType_struct t fs Hn Hk Hf).
    destruct fs as [|f [|g fs']]; try reflexivity.
    destruct (Sym_IsBlank (Field_Sym f)) eqn:Eb; simpl; [reflexivity|].
    exfalso. apply Hone. exists f. auto. }
  rewrite Hscan.
  destruct (scan_fields_all t fs Hk Hf fs Hall 0%nat AMEM eq_refl)
    as [[Hr Hp] | [Hr [j [f [Hj Hnp]]]]]; simpl in *.
  - repeat split.
    + intros _. exact Hr.
    + intros Hnot. exfalso. apply Hnot. exact Hp.
    + intros i f g Hi Hg Hlt. exfalso.
      apply (gap_not_plain t fs i f g Hk Hf Hi Hg Hlt). apply Hp. exact Hi.
  - repeat split.
    + intros Hp. exfalso. apply Hnp. apply Hp. exact Hj.
    + intros _. exact Hr.
    + intros _ _ _ _ _ _. exact Hr.
Qed.

Lemma AlgType_struct_AMEM_or_ASPECIAL_witness :
  AlgType t_gap = Ok ASPECIAL.
Proof.
  apply (proj2 (proj2 (AlgType_struct_AMEM_or_ASPECIAL t_gap
           [mkField (named "a") t_int8 0; mkField (named "b") t_int32 4]
           eq_refl eq_refl eq_refl
           (fun H => match H with
                     | ex_intro _ f (conj E _) => ltac:(discriminate E)
                     end)
           ltac:(repeat constructor;
                  exists AMEM; repeat split; discriminate)))
         0%nat (mkField (named "a") t_int8 0) (mkField (named "b") t_int32 4)
         eq_refl eq_refl).
  reflexivity.
Defined.

(** ** Noalg components *)

Lemma Type_Elem_NumElem (t e : Type_) :
  Type_Elem t = Ok e -> exists n, Type_NumElem t = Ok n.
Proof.
  unfold Type_Elem, Type_NumElem. destruct (Type_extra t); try discriminate.
  intros _. eexists. reflexivity.
Qed.

(** Among fields none of which classifies as ANOEQ, followed by one that
    classifies as ANOALG, the first ANOALG field has only comparable fields
    before it. *)
Lemma first_noalg_split (pre : list Field) (f : Field) (post : list Field) :
  Forall (fun g => exists a, AlgType (Field_Type g) = Ok a /\ a <> ANOEQ) pre ->
  AlgType (Field_Type f) = Ok ANOALG ->
  exists pre1 f1 post1,
    pre ++ f :: post = pre1 ++ f1 :: post1 /\
    Forall comparable_field pre1 /\
    AlgType (Field_Type f1) = Ok ANOALG.
Proof.
  intros Hpre Hf. induction Hpre as [|g pre [a [Ha Hne]] Hpre IH].
  - exists [], f, post. auto.
  - destruct (AlgKind_eq_dec a ANOALG) as [-> | Hna].
    + exists [], g, (pre ++ f :: post). auto.
    + destruct IH as [pre1 [f1 [post1 [E [Hc H1]]]]].
      exists (g :: pre1), f1, post1. simpl. rewrite E.
      split; [reflexivity|]. split; [|exact H1].
      constructor; [|exact Hc]. exists a. auto.
Qed.

(** C3, as the code has it.  A type whose Noalg flag is set classifies as
    ANOALG.  An array whose flag is not set and whose element classifies as
    ANOALG classifies as ANOALG.  A struct whose flag is not set, with a
    field that classifies as ANOALG, classifies as ANOALG provided every
    field before that one classifies as a tag other than ANOEQ. *)
Theorem AlgType_Noalg_poisons (t : Type_) :
  (Type_Noalg t = true -> AlgType t = Ok ANOALG) /\
  (forall e, Type_Noalg t = false -> Type_Kind t = TARRAY ->
             Type_Elem t = Ok e -> AlgType e = Ok ANOALG ->
             AlgType t = Ok ANOALG) /\
  (forall pre f post,
      Type_Noalg t = false -> Type_Kind t = TSTRUCT ->
      Type_Fields t = Ok (pre ++ f :: post) ->
      Forall (fun g => exists a, AlgType (Field_Type g) = Ok a /\ a <> ANOEQ)
             pre ->
      AlgType (Field_Type f) = Ok ANOALG ->
      AlgType t = Ok ANOALG).
Proof.
  split; [apply AlgType_Noalg|]. split.
  - intros e Hn Hk He Ha.
    destruct (Type_Elem_NumElem t e He) as [n Hnum].
    apply (AlgType_array_propagate t e n Hn Hk He Hnum ANOALG Ha). auto.
  - intros pre f post Hn Hk Hf Hpre Ha.
    destruct (first_noalg_split pre f post Hpre Ha)
      as [pre1 [f1 [post1 [E [Hc H1]]]]].
    rewrite E in Hf.
    apply (AlgType_struct_first t pre1 f1 post1 ANOALG Hn Hk Hf Hc H1). auto.
Qed.

Lemma AlgType_Noalg_poisons_witness :
  AlgType t_noalg_int32 = Ok ANOALG /\
  AlgType (array_of t_noalg_int32 3) = Ok ANOALG /\
  AlgType t_int_then_noalg = Ok ANOALG.
Proof.
  split; [|split].
  - apply (proj1 (AlgType_Noalg_poisons t_noalg_int32)). reflexivity.
  - apply (proj1 (proj2 (AlgType_Noalg_poisons (array_of t_noalg_int32 3)))
             t_noalg_int32); reflexivity.
  - apply (proj2 (proj2 (AlgType_Noalg_poisons t_int_then_noalg))
             [mkField (named "a") t_int32 0]
             (mkField (named "x") t_noalg_int32 4) []);
      try reflexivity.
    constructor; [|constructor]. exists AMEM. split; [reflexivity|discriminate].
Defined.

(** C3 as stated fails: in struct{ m map; x T } with T marked Noalg, the
    field x classifies as ANOALG, yet the struct classifies as ANOEQ, the
    tag of the map field that comes first. *)
Lemma Noalg_field_after_map_field :
  ~ (forall (t : Type_) (fs : list Field) (f : Field),
        Type_Noalg t = false -> Type_Kind t = TSTRUCT ->
        Type_Fields t = Ok fs -> In f fs ->
        AlgType (Field_Type f) = Ok ANOALG ->
        AlgType t = Ok ANOALG).
Proof.
  intros H.
  specialize (H t_map_then_noalg _ (mkField (named "x") t_noalg_int32 8)
                eq_refl eq_refl eq_refl).
  assert (Hin : In (mkField (named "x") t_noalg_int32 8)
                   [mkField (named "m") t_map 0;
                    mkField (named "x") t_noalg_int32 8])
    by (right; left; reflexivity).
  specialize (H Hin eq_refl). vm_compute in H. discriminate H.
Qed.

(** ** IncomparableField *)

Lemma first_incomparable_found (pre : list Field) (f : Field)
      (post : list Field) :
  Forall (fun g => IsComparable (Field_Type g) = Ok true) pre ->
  IsComparable (Field_Type f) = Ok false ->
  first_incomparable (pre ++ f :: post) = Ok (Some f).
Proof.
  intros Hpre Hf. induction Hpre as [|g pre Hg Hpre IH]; simpl.
  - rewrite Hf. reflexivity.
  - rewrite Hg. simpl. exact IH.
Qed.

Lemma first_incomparable_none (fs : list Field) :
  Forall (fun g => IsComparable (Field_Type g) = Ok true) fs ->
  first_incomparable fs = Ok None.
Proof.
  intros H. induction H as [|g fs Hg H IH]; simpl.
  - reflexivity.
  - rewrite Hg. simpl. exact IH.
Qed.

(** The outcome of the search is decided by the classifications of the
    field types alone: two lists of fields that classify alike, position by
    position, give no field both, or fields at the same position. *)
Lemma first_incomparable_same_position (fs fs' : list Field) :
  Forall2 (fun f f' => AlgType (Field_Type f) = AlgType (Field_Type f'))
          fs fs' ->
  match first_incomparable fs with
  | Ok None => first_incomparable fs' = Ok None
  | Ok (Some f) =>
      exists pre post pre' f' post',
        fs = pre ++ f :: post /\ fs' = pre' ++ f' :: post' /\
        List.length pre = List.length pre' /\
        first_incomparable fs' = Ok (Some f')
  | Fatalf msg u => first_incomparable fs' = Fatalf msg u
  | Panic => first_incomparable fs' = Panic
  end.
Proof.
  intros H. induction H as [|f f' fs fs' Hff H IH]; simpl.
  - reflexivity.
  - unfold IsComparable. rewrite <- Hff.
    destruct (AlgType (Field_Type f)) as [a| |]; simpl; try reflexivity.
    destruct (negb (a == ANOEQ) && negb (a == ANOALG)); simpl.
    + destruct (first_incomparable fs) as [[g|]| |]; try exact IH.
      destruct IH as [pre [post [pre' [g' [post' [E [E' [Hl Hr]]]]]]]].
      exists (f :: pre), post, (f' :: pre'), g', post'.
      simpl. repeat split;
        [rewrite E | rewrite E' | rewrite Hl | exact Hr]; reflexivity.
    + exists [], fs, [], f', fs'. auto.
Qed.

(** C8. On a struct, IncomparableField returns the first field in
    declaration order whose type is not comparable, and no field when every
    field's type is comparable; which position it returns depends on the
    classifications of the field types only, not on the fields' Syms and
    offsets nor on the rest of the struct type. *)
Theorem IncomparableField_first (t : Type_) (fs : list Field) :
  Type_Fields t = Ok fs ->
  (forall pre f post,
      fs = pre ++ f :: post ->
      Forall (fun g => IsComparable (Field_Type g) = Ok true) pre ->
      IsComparable (Field_Type f) = Ok false ->
      IncomparableField t = Ok (Some f)) /\
  (Forall (fun g => IsComparable (Field_Type g) = Ok true) fs ->
   IncomparableField t = Ok None) /\
  (forall t' fs',
      Type_Fields t' = Ok fs' ->
      Forall2 (fun f f' => AlgType (Field_Type f) = AlgType (Field_Type f'))
              fs fs' ->
      match IncomparableField t with
      | Ok None => IncomparableField t' = Ok None
      | Ok (Some f) =>
          exists pre post pre' f' post',
            fs = pre ++ f :: post /\ fs' = pre' ++ f' :: post' /\
            List.length pre = List.length pre' /\
            IncomparableField t' = Ok (Some f')
      | Fatalf msg u => IncomparableField t' = Fatalf msg u
      | Panic => IncomparableField t' = Panic
      end).
Proof.
  intros Hf. unfold IncomparableField. rewrite Hf; simpl. repeat split.
  - intros pre f post -> Hpre Hnc.
    apply first_incomparable_found; assumption.
  - apply first_incomparable_none.
  - intros t' fs' Hf' H2. rewrite Hf'; simpl.
    apply first_incomparable_same_position. exact H2.
Qed.

Lemma IncomparableField_first_witness :
  IncomparableField t_with_map = Ok (Some (mkField (named "m") t_map 8)) /\
  IncomparableField t_gap = Ok None.
Proof.
  split.
  - apply (proj1 (IncomparableField_first t_with_map _ eq_refl)
             [mkField (named "a") t_int32 0] (mkField (named "m") t_map 8)
             [mkField (named "b") t_int32 16]);
      [reflexivity | repeat constructor | reflexivity].
  - apply (proj1 (proj2 (IncomparableField_first t_gap _ eq_refl))).
    repeat constructor.
Defined.

(** ** Totality and the abort branches *)

(** Induction on a type through the element of an array and the field
    types of a struct. *)
Section Type_induction.
Variable P : Type_ -> Prop.
Hypothesis P_NoExtra : forall k n w, P (mkType k n w NoExtra).
Hypothesis P_Interface : forall k n w ms, P (mkType k n w (Interface ms)).
Hypothesis P_Array :
  forall k n w e b, P e -> P (mkType k n w (Array e b)).
Hypothesis P_Struct :
  forall k n w fs,
    Forall (fun f => P (Field_Type f)) fs -> P (mkType k n w (Struct fs)).

Fixpoint Type_induction (t : Type_) : P t :=
  match t with
  | mkType k n w ex =>
      match ex return P (mkType k n w ex) with
      | NoExtra => P_NoExtra k n w
      | Interface ms => P_Interface k n w ms
      | Array e b => P_Array k n w e b (Type_induction e)
      | Struct fs =>
          P_Struct k n w fs
            ((fix fields (l : list Field)
                : Forall (fun f => P (Field_Type f)) l :=
                match l with
                | [] => Forall_nil _
                | f :: r =>
                    Forall_cons f
                      (match f return P (Field_Type f) with
                       | mkField _ ft _ => Type_induction ft
                       end)
                      (fields r)
                end) fs)
      end
  end.
End Type_induction.

Lemma component_kinds_closed (u t : Type_) :
  component u t -> kinds_closed t = true ->
  closed_kind (Type_Kind u) = true.
Proof.
  intros H. induction H as [|t e He H IH|t fs f Hf Hin H IH]; intros Hc.
  - destruct u as [k n w ex]; simpl in *.
    apply andb_true_iff in Hc. tauto.
  - apply IH. destruct t as [k n w ex]; simpl in *.
    unfold Type_Elem in He; simpl in He.
    destruct ex; try discriminate He. injection He as ->.
    apply andb_true_iff in Hc. tauto.
  - apply IH. destruct t as [k n w ex]; simpl in *.
    unfold Type_Fields in Hf; simpl in Hf.
    destruct ex; try discriminate Hf. injection Hf as ->.
    apply andb_true_iff in Hc. destruct Hc as [_ Hc].
    rewrite forallb_forall in Hc. apply Hc. exact Hin.
Qed.

Lemma scan_fields_tag_or_abort (t : Type_) (fs : list Field) :
  Type_Kind t = TSTRUCT -> Type_Fields t = Ok fs ->
  forall l : list Field,
    Forall (fun f => tag_or_abort (AlgType (Field_Type f)) (Field_Type f)) l ->
    (forall f, In f l -> In f fs) ->
    forall (i : nat) (ret : AlgKind),
      skipn i fs = l ->
      tag_or_abort (scan_fields AlgType t l (Z.of_nat i) ret) t.
Proof.
  intros Hk Hf l Hl. induction Hl as [|f l Hq Hl IH]; intros Hin i ret Hs.
  - left. exists ret. reflexivity.
  - apply skipn_cons_inv in Hs. destruct Hs as [Hi Hs].
    destruct Hq as [[a Ha] | [u [Hu [Hc [Hn Hcl]]]]].
    + destruct (noeq_or_noalg a) eqn:E.
      * left. exists a. apply noeq_or_noalg_true in E.
        apply (scan_fields_stop t f l _ ret a Ha E).
      * apply noeq_or_noalg_false in E. destruct E as [E1 E2].
        destruct (scan_fields_step t fs Hk Hf f l i ret a Hi Ha E1 E2)
          as [sp [_ Heq]].
        rewrite Heq. apply IH; [|exact Hs].
        intros g Hg. apply Hin. right. exact Hg.
    + right. exists u. simpl. rewrite Hu. simpl.
      split; [reflexivity|]. split; [|auto].
      apply (component_Field u t fs f Hf); [|exact Hc].
      apply Hin. left. reflexivity.
Qed.

Lemma AlgType_tag_or_abort (t : Type_) :
  well_formed t = true -> tag_or_abort (AlgType t) t.
Proof.
  induction t as [k n w|k n w ms|k n w e b IH|k n w fs IH]
    using Type_induction; intros Hwf.
  - destruct n; [left; exists ANOALG; reflexivity|].
    destruct k; simpl in *; try discriminate Hwf;
      try (left; eexists; reflexivity).
    right. eexists. split; [reflexivity|]. split; [constructor|auto].
  - destruct n; [left; exists ANOALG; reflexivity|].
    destruct k; simpl in *; try discriminate Hwf;
      try (left; eexists; reflexivity).
    + left. unfold Type_IsEmptyInterface; simpl.
      destruct ms; eexists; reflexivity.
    + right. eexists. split; [reflexivity|]. split; [constructor|auto].
  - destruct n; [left; exists ANOALG; reflexivity|].
    destruct k; simpl in Hwf; try discriminate Hwf;
      try (left; eexists; reflexivity).
    + destruct (IH Hwf) as [[a Ha] | [u [Hu [Hc [Hn Hcl]]]]].
      * left. simpl. rewrite Ha; simpl.
        destruct ((a == AMEM) || (a == ANOEQ) || (a == ANOALG));
          [eexists; reflexivity|].
        destruct b as [|[| |]|]; eexists; reflexivity.
      * right. exists u. simpl. rewrite Hu; simpl.
        split; [reflexivity|]. split; [|auto].
        apply (component_Elem u _ e); [reflexivity | exact Hc].
    + right. eexists. split; [reflexivity|]. split; [constructor|auto].
  - destruct n; [left; exists ANOALG; reflexivity|].
    destruct k; simpl in Hwf; try discriminate Hwf;
      try (left; eexists; reflexivity).
    + set (t := mkType TSTRUCT false w (Struct fs)).
      assert (Hq : Forall (fun f => tag_or_abort (AlgType (Field_Type f))
                                                 (Field_Type f)) fs).
      { rewrite forallb_forall in Hwf. rewrite Forall_forall in IH.
        apply Forall_forall. intros f Hin. apply IH; auto. }
      assert (Hscan : tag_or_abort (scan_fields AlgType t fs 0 AMEM) t).
      { apply (scan_fields_tag_or_abort t fs eq_refl eq_refl fs Hq
                 (fun f H => H) 0%nat AMEM eq_refl). }
      rewrite (AlgType_struct t fs eq_refl eq_refl eq_refl).
      destruct fs as [|f [|g fs']]; try exact Hscan.
      destruct (Sym_IsBlank (Field_Sym f)); simpl; [exact Hscan|].
      inversion Hq as [|f0 l0 Hf0 _]; subst.
      destruct Hf0 as [[a Ha] | [u [Hu [Hc [Hn Hcl]]]]].
      * left. exists a. exact Ha.
      * right. exists u. split; [exact Hu|]. split; [|auto].
        apply (component_Field u t [f] f eq_refl); [left; reflexivity|].
        exact Hc.
    + right. eexists. split; [reflexivity|]. split; [constructor|auto].
Qed.

Lemma IsPaddedField_struct_no_Fatalf (t : Type_) (i : Z) :
  Type_IsStruct t = true ->
  forall msg u, IsPaddedField t i <> Fatalf msg u.
Proof.
  intros Hs msg u. unfold IsPaddedField. rewrite Hs; simpl.
  unfold Type_NumFields, Type_Field, Type_Fields.
  destruct (Type_extra t) as [|ms|e b|fs]; simpl; try discriminate.
  repeat match goal with
         | |- context [if ?c then _ else _] => destruct c; simpl
         | |- context [nth_error ?l ?n] => destruct (nth_error l n); simpl
         end;
    discriminate.
Qed.

(** C9. On a well-formed type AlgType returns a tag, or aborts through
    base.Fatalf on a component whose Noalg flag is unset and whose kind the
    switch does not name; it returns a tag when every kind in the type is
    one the switch names, and it does abort on a type of another kind whose
    flag is unset.  IsPaddedField aborts through base.Fatalf exactly when
    its argument is not a struct, and returns on a struct at every index
    of a field. *)
Theorem AlgType_total_abort_conditions (t : Type_) (i : Z) :
  (well_formed t = true -> tag_or_abort (AlgType t) t) /\
  (well_formed t = true -> kinds_closed t = true ->
   exists a, AlgType t = Ok a) /\
  (Type_Noalg t = false -> closed_kind (Type_Kind t) = false ->
   AlgType t = Fatalf msg_AlgType t) /\
  (Type_IsStruct t = false -> IsPaddedField t i = Fatalf msg_IsPaddedField t) /\
  (Type_IsStruct t = true -> forall msg u, IsPaddedField t i <> Fatalf msg u) /\
  (Type_IsStruct t = true -> forall f, Type_Field t i = Ok f ->
   exists p, IsPaddedField t i = Ok p).
Proof.
  split; [apply AlgType_tag_or_abort|]. split; [|split; [|split; [|split]]].
  - intros Hwf Hc.
    destruct (AlgType_tag_or_abort t Hwf) as [Ha | [u [_ [Hu [_ Hk]]]]];
      [exact Ha|].
    rewrite (component_kinds_closed u t Hu Hc) in Hk. discriminate Hk.
  - destruct t as [k n w ex]; simpl. intros -> Hk.
    destruct k; try discriminate Hk. reflexivity.
  - intros Hs. unfold IsPaddedField. rewrite Hs. reflexivity.
  - apply IsPaddedField_struct_no_Fatalf.
  - intros Hs f Hf.
    assert (Hfs : exists fs, Type_Fields t = Ok fs).
    { unfold Type_Field in Hf. destruct (Type_Fields t) as [fs| |];
        try discriminate Hf. exists fs. reflexivity. }
    destruct Hfs as [fs Hfs].
    apply (Type_Field_Ok t fs i f Hfs) in Hf. destruct Hf as [H0 Hn].
    apply Type_IsStruct_Kind in Hs.
    pose proof (IsPaddedField_nth t fs (Z.to_nat i) f Hs Hfs Hn) as Hp.
    rewrite Z2Nat.id in Hp by exact H0.
    eexists. exact Hp.
Qed.

Lemma AlgType_total_abort_conditions_witness :
  (exists a, AlgType (array_of t_with_map 2) = Ok a) /\
  AlgType (prim (Tother 3) 0) = Fatalf msg_AlgType (prim (Tother 3) 0) /\
  IsPaddedField t_int32 0 = Fatalf msg_IsPaddedField t_int32 /\
  (exists p, IsPaddedField t_pair 1 = Ok p).
Proof.
  split; [|split; [|split]].
  - apply (proj1 (proj2 (AlgType_total_abort_conditions
                           (array_of t_with_map 2) 0)));
      reflexivity.
  - apply (proj1 (proj2 (proj2 (AlgType_total_abort_conditions
                                  (prim (Tother 3) 0) 0))));
      reflexivity.
  - apply (proj1 (proj2 (proj2 (proj2 (AlgType_total_abort_conditions
                                         t_int32 0)))));
      reflexivity.
  - apply (proj2 (proj2 (proj2 (proj2 (proj2
             (AlgType_total_abort_conditions t_pair 1)))))
             eq_refl (mkField (named "b") t_int32 4)).
    reflexivity.
Defined.

(** * Further properties of the classification *)

(** ** Comparability in terms of the tag *)

Lemma IsComparable_true_iff (t : Type_) :
  IsComparable t = Ok true <->
  exists a, AlgType t = Ok a /\ a <> ANOEQ /\ a <> ANOALG.
Proof.
  unfold IsComparable. destruct (AlgType t) as [a| |]; simpl; split.
  - intros H. injection H as H. exists a. split; [reflexivity|].
    apply andb_true_iff in H. destruct H as [H1 H2].
    apply negb_true_iff in H1, H2. split; apply AlgKind_eqb_neq; assumption.
  - intros [b [Hb [H1 H2]]]. injection Hb as ->.
    apply AlgKind_eqb_neq in H1, H2. rewrite H1, H2. reflexivity.
  - discriminate.
  - intros [b [Hb _]]. discriminate Hb.
  - discriminate.
  - intros [b [Hb _]]. discriminate Hb.
Qed.

Lemma IsComparable_false_iff (t : Type_) :
  IsComparable t = Ok false <->
  exists a, AlgType t = Ok a /\ (a = ANOEQ \/ a = ANOALG).
Proof.
  unfold IsComparable. destruct (AlgType t) as [a| |]; simpl; split.
  - intros H. injection H as H. exists a. split; [reflexivity|].
    apply andb_false_iff in H.
    destruct H as [H | H]; apply negb_false_iff, AlgKind_eqb_eq in H; auto.
  - intros [b [Hb [H | H]]]; injection Hb as ->; subst; reflexivity.
  - discriminate.
  - intros [b [Hb _]]. discriminate Hb.
  - discriminate.
  - intros [b [Hb _]]. discriminate Hb.
Qed.

Lemma comparable_field_IsComparable (f : Field) :
  comparable_field f <-> IsComparable (Field_Type f) = Ok true.
Proof. unfold comparable_field. symmetry. apply IsComparable_true_iff. Qed.

Lemma Forall_comparable_IsComparable (l : list Field) :
  Forall comparable_field l <->
  Forall (fun g => IsComparable (Field_Type g) = Ok true) l.
Proof.
  rewrite !Forall_forall. split; intros H f Hin;
    apply comparable_field_IsComparable, H, Hin.
Qed.

(** ** The first field that is not comparable *)

(** A list of fields is comparable throughout, or has a first field that
    classifies as ANOEQ or ANOALG, or has a first field on which AlgType
    does not return. *)
Lemma fields_split (l : list Field) :
  Forall comparable_field l \/
  exists pre f post,
    l = pre ++ f :: post /\ Forall comparable_field pre /\
    ((exists a, AlgType (Field_Type f) = Ok a /\ (a = ANOEQ \/ a = ANOALG)) \/
     (forall a, AlgType (Field_Type f) <> Ok a)).
Proof.
  induction l as [|f l IH].
  - left. constructor.
  - destruct (AlgType (Field_Type f)) as [a| |] eqn:Ea.
    + destruct (noeq_or_noalg a) eqn:Eb.
      * right. exists [], f, l. split; [reflexivity|]. split; [constructor|].
        left. exists a. split; [exact Ea|]. apply noeq_or_noalg_true, Eb.
      * apply noeq_or_noalg_false in Eb.
        assert (Hc : comparable_field f) by (exists a; tauto).
        destruct IH as [IH | [pre [g [post [E [Hpre Hg]]]]]].
        -- left. constructor; assumption.
        -- right. exists (f :: pre), g, post. rewrite E.
           split; [reflexivity|]. split; [constructor; assumption|].
           destruct Hg as [[b Hb] | Hg]; [left; exists b; exact Hb|].
           right. exact Hg.
    + right. exists [], f, l. split; [reflexivity|]. split; [constructor|].
      right. rewrite Ea. discriminate.
    + right. exists [], f, l. split; [reflexivity|]. split; [constructor|].
      right. rewrite Ea. discriminate.
Qed.

Lemma first_incomparable_abort (pre : list Field) (f : Field)
      (post : list Field) :
  Forall comparable_field pre ->
  (forall a, AlgType (Field_Type f) <> Ok a) ->
  forall r, first_incomparable (pre ++ f :: post) <> Ok r.
Proof.
  intros Hpre Hf r. induction Hpre as [|g pre Hg Hpre IH]; simpl.
  - unfold IsComparable. destruct (AlgType (Field_Type f)) as [a| |];
      simpl; try discriminate.
    exfalso. apply (Hf a). reflexivity.
  - apply comparable_field_IsComparable in Hg. rewrite Hg. simpl. exact IH.
Qed.

Section StructOutcomes.
Variables (t : Type_) (fs : list Field).
Hypothesis Hkind : Type_Kind t = TSTRUCT.
Hypothesis Hfields : Type_Fields t = Ok fs.

(** A field on which AlgType does not return ends the scan with the same
    outcome. *)
Lemma scan_fields_abort (pre : list Field) (f : Field) (post : list Field) :
  Forall comparable_field pre ->
  (forall a, AlgType (Field_Type f) <> Ok a) ->
  forall (i : nat) (ret : AlgKind),
    skipn i fs = pre ++ f :: post ->
    scan_fields AlgType t (pre ++ f :: post) (Z.of_nat i) ret
    = AlgType (Field_Type f).
Proof.
  intros Hpre Hf. induction Hpre as [|g pre Hg Hpre IH]; intros i ret Hs.
  - simpl. destruct (AlgType (Field_Type f)) as [a| |]; simpl;
      try reflexivity.
    exfalso. apply (Hf a). reflexivity.
  - apply skipn_cons_inv in Hs. destruct Hs as [Hi Hs].
    destruct Hg as [b [Hb [Hb1 Hb2]]].
    destruct (scan_fields_step t fs Hkind Hfields g (pre ++ f :: post)
                i ret b Hi Hb Hb1 Hb2) as [sp [_ Heq]].
    change ((g :: pre) ++ f :: post) with (g :: (pre ++ f :: post)).
    rewrite Heq. apply IH. exact Hs.
Qed.

(** The three ways in which the scan of all the fields ends. *)
Lemma scan_fields_cases :
  (Forall comparable_field fs /\
   ((scan_fields AlgType t fs 0 AMEM = Ok AMEM /\
     forall j f, nth_error fs j = Some f -> plain_field t j f) \/
    (scan_fields AlgType t fs 0 AMEM = Ok ASPECIAL /\
     exists j f, nth_error fs j = Some f /\ ~ plain_field t j f))) \/
  (exists pre f post a,
      fs = pre ++ f :: post /\ Forall comparable_field pre /\
      AlgType (Field_Type f) = Ok a /\ (a = ANOEQ \/ a = ANOALG) /\
      scan_fields AlgType t fs 0 AMEM = Ok a) \/
  (exists pre f post,
      fs = pre ++ f :: post /\ Forall comparable_field pre /\
      (forall a, AlgType (Field_Type f) <> Ok a) /\
      scan_fields AlgType t fs 0 AMEM = AlgType (Field_Type f)).
Proof.
  destruct (fields_split fs)
    as [Hall | [pre [f [post [E [Hpre [[a [Ha Hbad]] | Hab]]]]]]].
  - left. split; [exact Hall|].
    exact (scan_fields_all t fs Hkind Hfields fs Hall 0%nat AMEM eq_refl).
  - right. left. exists pre, f, post, a. repeat split; try assumption.
    rewrite E.
    apply (scan_fields_first t fs Hkind Hfields pre f post a Hpre Ha Hbad
             0%nat AMEM).
    rewrite <- E. reflexivity.
  - right. right. exists pre, f, post. repeat split; try assumption.
    rewrite E.
    apply (scan_fields_abort pre f post Hpre Hab 0%nat AMEM).
    rewrite <- E. reflexivity.
Qed.

Hypothesis Hnoalg : Type_Noalg t = false.

(** AlgType of the struct is the outcome of the scan, but for the struct of
    one field that is not blank. *)
Lemma AlgType_struct_scan_or_single :
  AlgType t = scan_fields AlgType t fs 0 AMEM \/
  exists f, fs = [f] /\ Sym_IsBlank (Field_Sym f) = false /\
            AlgType t = AlgType (Field_Type f).
Proof.
  rewrite (AlgType_struct t fs Hnoalg Hkind Hfields).
  destruct fs as [|f [|g l]]; auto.
  destruct (Sym_IsBlank (Field_Sym f)) eqn:Eb; simpl; auto.
  right. exists f. auto.
Qed.

(** The outcome of AlgType on the struct by the first field that is not
    comparable. *)
Lemma AlgType_struct_cases :
  (Forall comparable_field fs /\
   exists a, AlgType t = Ok a /\ a <> ANOEQ /\ a <> ANOALG) \/
  (exists pre f post,
      fs = pre ++ f :: post /\ Forall comparable_field pre /\
      ~ comparable_field f /\
      AlgType t = AlgType (Field_Type f) /\
      forall a, AlgType t = Ok a -> a = ANOEQ \/ a = ANOALG).
Proof.
  assert (Hsingle :
    forall f, fs = [f] -> AlgType t = AlgType (Field_Type f) ->
      (Forall comparable_field fs /\
       exists a, AlgType t = Ok a /\ a <> ANOEQ /\ a <> ANOALG) \/
      (exists pre f post,
          fs = pre ++ f :: post /\ Forall comparable_field pre /\
          ~ comparable_field f /\
          AlgType t = AlgType (Field_Type f) /\
          forall a, AlgType t = Ok a -> a = ANOEQ \/ a = ANOALG)).
  { intros f E Hf.
    destruct (AlgType (Field_Type f)) as [a| |] eqn:Ea.
    - destruct (noeq_or_noalg a) eqn:Eb.
      + apply noeq_or_noalg_true in Eb.
        right. exists [], f, []. rewrite Ea.
        repeat split; auto.
        * intros [b [Hb [H1 H2]]]. rewrite Ea in Hb. injection Hb as <-.
          tauto.
        * intros b Hb. rewrite Hf in Hb. injection Hb as <-. exact Eb.
      + apply noeq_or_noalg_false in Eb.
        left. split.
        * rewrite E. constructor; [|constructor]. exists a. tauto.
        * exists a. tauto.
    - right. exists [], f, []. rewrite Ea. repeat split; auto.
      + intros [b [Hb _]]. rewrite Ea in Hb. discriminate Hb.
      + intros b Hb. rewrite Hf in Hb. discriminate Hb.
    - right. exists [], f, []. rewrite Ea. repeat split; auto.
      + intros [b [Hb _]]. rewrite Ea in Hb. discriminate Hb.
      + intros b Hb. rewrite Hf in Hb. discriminate Hb. }
  destruct AlgType_struct_scan_or_single as [Hs | [f [E [_ Hf]]]];
    [|exact (Hsingle f E Hf)].
  destruct scan_fields_cases
    as [[Hall [[Hr _] | [Hr _]]]
       | [[pre [f [post [a [E [Hpre [Ha [Hbad Hr]]]]]]]]
         | [pre [f [post [E [Hpre [Hab Hr]]]]]]]].
  - left. split; [exact Hall|]. exists AMEM. rewrite Hs, Hr.
    repeat split; discriminate.
  - left. split; [exact Hall|]. exists ASPECIAL. rewrite Hs, Hr.
    repeat split; discriminate.
  - right. exists pre, f, post. rewrite Hs, Hr, Ha.
    repeat split; auto.
    + intros [b [Hb [H1 H2]]]. rewrite Ha in Hb. injection Hb as <-. tauto.
    + intros b Hb. injection Hb as <-. exact Hbad.
  - right. exists pre, f, post. rewrite Hs, Hr.
    repeat split; auto.
    + intros [b [Hb _]]. apply (Hab b). exact Hb.
    + intros b Hb. exfalso. apply (Hab b). exact Hb.
Qed.
End StructOutcomes.

(** ** Arrays *)

(** X5. An array whose element count is neither 0 nor 1, a negative count
    included, classifies as its element when the element is AMEM, ANOEQ or
    ANOALG, and as ASPECIAL for every other element tag. *)
Theorem AlgType_array_many (t e : Type_) (n : Z) (a : AlgKind) :
  Type_Noalg t = false -> Type_Kind t = TARRAY ->
  Type_Elem t = Ok e -> Type_NumElem t = Ok n ->
  n <> 0 -> n <> 1 ->
  AlgType e = Ok a ->
  (a = AMEM \/ a = ANOEQ \/ a = ANOALG -> AlgType t = Ok a) /\
  (a <> AMEM -> a <> ANOEQ -> a <> ANOALG -> AlgType t = Ok ASPECIAL).
Proof.
  intros Hn Hk He Hnum H0 H1 Ha. split.
  - apply (AlgType_array_propagate t e n Hn Hk He Hnum a Ha).
  - intros Hm Hq Hg.
    rewrite (AlgType_array_other t e n Hn Hk He Hnum a Ha Hm Hq Hg).
    destruct n as [|[p|p|]|p]; try reflexivity; contradiction.
Qed.

Lemma AlgType_array_many_witness :
  AlgType (array_of t_string (-1)) = Ok ASPECIAL.
Proof.
  apply (proj2 (AlgType_array_many (array_of t_string (-1)) t_string (-1)
                  ASTRING eq_refl eq_refl eq_refl eq_refl
                  ltac:(discriminate) ltac:(discriminate) eq_refl));
    discriminate.
Defined.

Lemma IsComparable_array_aux (t e : Type_) :
  Type_Noalg t = false -> Type_Kind t = TARRAY -> Type_Elem t = Ok e ->
  IsComparable t = IsComparable e.
Proof.
  intros Hn Hk He. destruct (Type_Elem_NumElem t e He) as [n Hnum].
  unfold IsComparable. rewrite (AlgType_array t e n Hn Hk He Hnum).
  destruct (AlgType e) as [a| |]; simpl; try reflexivity.
  destruct a; simpl; try reflexivity;
    destruct n as [|[p|p|]|p]; reflexivity.
Qed.

(** X6. An array whose Noalg flag is not set is comparable exactly when its
    element type is, whatever the element count: IsComparable has the same
    outcome on both. *)
Theorem IsComparable_array (t e : Type_) :
  Type_Noalg t = false -> Type_Kind t = TARRAY -> Type_Elem t = Ok e ->
  IsComparable t = IsComparable e.
Proof. apply IsComparable_array_aux. Qed.

Lemma IsComparable_array_witness :
  IsComparable (array_of t_with_map 0) = Ok false.
Proof.
  rewrite (IsComparable_array (array_of t_with_map 0) t_with_map
             eq_refl eq_refl eq_refl).
  reflexivity.
Defined.

(** ** Structs and their fields *)

Lemma IsComparable_struct_fields_aux (t : Type_) (fs : list Field) :
  Type_Noalg t = false -> Type_Kind t = TSTRUCT -> Type_Fields t = Ok fs ->
  (IsComparable t = Ok true <->
   Forall (fun f => IsComparable (Field_Type f) = Ok true) fs).
Proof.
  intros Hn Hk Hf. rewrite <- Forall_comparable_IsComparable.
  rewrite IsComparable_true_iff.
  destruct (AlgType_struct_cases t fs Hk Hf Hn)
    as [[Hall Ha] | [pre [f [post [E [Hpre [Hnc [Ht Hbad]]]]]]]].
  - tauto.
  - split.
    + intros [a [Ha [H1 H2]]]. destruct (Hbad a Ha); contradiction.
    + intros Hall. exfalso. apply Hnc.
      rewrite Forall_forall in Hall. apply Hall. rewrite E.
      apply in_or_app. right. left. reflexivity.
Qed.

(** X7. A struct whose Noalg flag is not set is comparable exactly when the
    type of every field is. *)
Theorem IsComparable_struct_iff_fields (t : Type_) (fs : list Field) :
  Type_Noalg t = false -> Type_Kind t = TSTRUCT -> Type_Fields t = Ok fs ->
  (IsComparable t = Ok true <->
   Forall (fun f => IsComparable (Field_Type f) = Ok true) fs).
Proof. apply IsComparable_struct_fields_aux. Qed.

Lemma IsComparable_struct_iff_fields_witness :
  IsComparable t_gap = Ok true.
Proof.
  apply (proj2 (IsComparable_struct_iff_fields t_gap _
                  eq_refl eq_refl eq_refl)).
  repeat constructor.
Defined.

(** X9. Whatever IncomparableField returns on a type with fields is one of the
    fields, its type is not comparable and the types of all the fields
    before it are; it returns no field only when every field's type is
    comparable. *)
Theorem IncomparableField_sound (t : Type_) (fs : list Field) :
  Type_Fields t = Ok fs ->
  (forall f, IncomparableField t = Ok (Some f) ->
     exists pre post,
       fs = pre ++ f :: post /\
       Forall (fun g => IsComparable (Field_Type g) = Ok true) pre /\
       IsComparable (Field_Type f) = Ok false) /\
  (IncomparableField t = Ok None ->
   Forall (fun g => IsComparable (Field_Type g) = Ok true) fs).
Proof.
  intros Hf. unfold IncomparableField. rewrite Hf; simpl.
  destruct (fields_split fs)
    as [Hall | [pre [g [post [E [Hpre [[a [Ha Hbad]] | Hab]]]]]]].
  - apply Forall_comparable_IsComparable in Hall.
    rewrite (first_incomparable_none fs Hall). split.
    + intros f H. discriminate H.
    + intros _. exact Hall.
  - assert (Hg : IsComparable (Field_Type g) = Ok false)
      by (apply IsComparable_false_iff; exists a; auto).
    apply Forall_comparable_IsComparable in Hpre.
    rewrite E, (first_incomparable_found pre g post Hpre Hg). split.
    + intros f H. injection H as <-. exists pre, post. auto.
    + intros H. discriminate H.
  - rewrite E. split.
    + intros f H.
      exfalso. exact (first_incomparable_abort pre g post Hpre Hab _ H).
    + intros H.
      exfalso. exact (first_incomparable_abort pre g post Hpre Hab _ H).
Qed.

Lemma IncomparableField_sound_witness :
  exists pre post,
    [mkField (named "a") t_int32 0; mkField (named "m") t_map 8;
     mkField (named "b") t_int32 16]
    = pre ++ mkField (named "m") t_map 8 :: post /\
    Forall (fun g => IsComparable (Field_Type g) = Ok true) pre /\
    IsComparable (Field_Type (mkField (named "m") t_map 8)) = Ok false.
Proof.
  apply (proj1 (IncomparableField_sound t_with_map _ eq_refl)).
  reflexivity.
Defined.

(** X10. On a struct whose Noalg flag is not set, IncomparableField returns no
    field exactly when the struct is comparable; when it returns a field,
    the struct is not comparable and classifies exactly as that field's
    type does. *)
Theorem IncomparableField_explains_AlgType (t : Type_) (fs : list Field) :
  Type_Noalg t = false -> Type_Kind t = TSTRUCT -> Type_Fields t = Ok fs ->
  (IncomparableField t = Ok None <-> IsComparable t = Ok true) /\
  (forall f, IncomparableField t = Ok (Some f) ->
     IsComparable t = Ok false /\ AlgType t = AlgType (Field_Type f)).
Proof.
  intros Hn Hk Hf.
  unfold IncomparableField. rewrite Hf; simpl.
  rewrite IsComparable_true_iff.
  destruct (AlgType_struct_cases t fs Hk Hf Hn)
    as [[Hall Ha] | [pre [g [post [E [Hpre [Hnc [Ht Hbad]]]]]]]].
  - apply Forall_comparable_IsComparable in Hall.
    rewrite (first_incomparable_none fs Hall). split; [tauto|].
    intros f H. discriminate H.
  - destruct (AlgType (Field_Type g)) as [a| |] eqn:Ea;
      try rewrite Ea in Ht.
    + assert (Hg : IsComparable (Field_Type g) = Ok false).
      { apply IsComparable_false_iff. exists a. split; [exact Ea|].
        apply Hbad. exact Ht. }
      apply Forall_comparable_IsComparable in Hpre.
      rewrite E, (first_incomparable_found pre g post Hpre Hg). split.
      * split; [discriminate|].
        intros [b [Hb [H1 H2]]]. destruct (Hbad b Hb); contradiction.
      * intros f H. injection H as <-. split.
        -- apply IsComparable_false_iff. exists a.
           split; [exact Ht|]. apply Hbad. exact Ht.
        -- rewrite Ea. exact Ht.
    + assert (Hab : forall a, AlgType (Field_Type g) <> Ok a)
        by (intros a; rewrite Ea; discriminate).
      rewrite E. split.
      * split.
        -- intros H. exfalso.
           exact (first_incomparable_abort pre g post Hpre Hab _ H).
        -- intros [b [Hb _]]. rewrite Ht in Hb. discriminate Hb.
      * intros f H. exfalso.
        exact (first_incomparable_abort pre g post Hpre Hab _ H).
    + assert (Hab : forall a, AlgType (Field_Type g) <> Ok a)
        by (intros a; rewrite Ea; discriminate).
      rewrite E. split.
      * split.
        -- intros H. exfalso.
           exact (first_incomparable_abort pre g post Hpre Hab _ H).
        -- intros [b [Hb _]]. rewrite Ht in Hb. discriminate Hb.
      * intros f H. exfalso.
        exact (first_incomparable_abort pre g post Hpre Hab _ H).
Qed.

Lemma IncomparableField_explains_AlgType_witness :
  IsComparable t_with_map = Ok false /\
  AlgType t_with_map = AlgType (Field_Type (mkField (named "m") t_map 8)).
Proof.
  apply (proj2 (IncomparableField_explains_AlgType t_with_map _
                  eq_refl eq_refl eq_refl)).
  reflexivity.
Defined.

(** X11. A type whose Noalg flag is set and whose fields all have comparable
    types is not comparable, yet IncomparableField finds no field in it:
    the search looks at the fields only, not at the flag. *)
Theorem IncomparableField_ignores_Noalg (t : Type_) (fs : list Field) :
  Type_Noalg t = true -> Type_Fields t = Ok fs ->
  Forall (fun f => IsComparable (Field_Type f) = Ok true) fs ->
  IsComparable t = Ok false /\ TypeHasNoAlg t = Ok true /\
  IncomparableField t = Ok None.
Proof.
  intros Hn Hf Hall. unfold IsComparable, TypeHasNoAlg, IncomparableField.
  rewrite (AlgType_Noalg t Hn), Hf; simpl.
  rewrite (first_incomparable_none fs Hall). auto.
Qed.

Lemma IncomparableField_ignores_Noalg_witness :
  IsComparable (mkType TSTRUCT true 4 (Struct [mkField (named "a") t_int32 0]))
  = Ok false /\
  TypeHasNoAlg (mkType TSTRUCT true 4 (Struct [mkField (named "a") t_int32 0]))
  = Ok true /\
  IncomparableField
    (mkType TSTRUCT true 4 (Struct [mkField (named "a") t_int32 0]))
  = Ok None.
Proof.
  apply (IncomparableField_ignores_Noalg
           (mkType TSTRUCT true 4 (Struct [mkField (named "a") t_int32 0]))
           [mkField (named "a") t_int32 0] eq_refl eq_refl).
  repeat constructor.
Defined.

(** X12. A struct whose Noalg flag is not set classifies as AMEM only if every
    field classifies as AMEM and none is blank; and, unless it is the struct
    of one field that is not blank, only if no field is followed by
    padding. *)
Theorem AlgType_struct_AMEM_only_plain (t : Type_) (fs : list Field) :
  Type_Noalg t = false -> Type_Kind t = TSTRUCT -> Type_Fields t = Ok fs ->
  AlgType t = Ok AMEM ->
  (forall f, In f fs ->
     AlgType (Field_Type f) = Ok AMEM /\ Sym_IsBlank (Field_Sym f) = false) /\
  (~ (exists f, fs = [f] /\ Sym_IsBlank (Field_Sym f) = false) ->
   forall i f, nth_error fs i = Some f ->
     IsPaddedField t (Z.of_nat i) = Ok false).
Proof.
  intros Hn Hk Hf Ha.
  destruct (AlgType_struct_scan_or_single t fs Hk Hf Hn)
    as [Hs | [f [E [Hb Hs]]]].
  - rewrite Hs in Ha.
    destruct (scan_fields_cases t fs Hk Hf)
      as [[_ [[_ Hp] | [Hr _]]]
         | [[pre [f [post [a [_ [_ [_ [Hbad Hr]]]]]]]]
           | [pre [f [post [_ [_ [Hab Hr]]]]]]]].
    + split.
      * intros f Hin. apply In_nth_error in Hin. destruct Hin as [i Hi].
        destruct (Hp i f Hi) as [H1 [H2 _]]. auto.
      * intros _ i f Hi. apply (Hp i f Hi).
    + rewrite Hr in Ha. discriminate Ha.
    + rewrite Hr in Ha. injection Ha as ->.
      destruct Hbad as [H | H]; discriminate H.
    + rewrite Hr in Ha. exfalso. apply (Hab AMEM). exact Ha.
  - split.
    + intros g Hin. rewrite E in Hin. destruct Hin as [<- | []].
      rewrite <- Hs. auto.
    + intros Hone. exfalso. apply Hone. exists f. auto.
Qed.

Lemma AlgType_struct_AMEM_only_plain_witness :
  IsPaddedField t_pair 1 = Ok false.
Proof.
  apply (proj2 (AlgType_struct_AMEM_only_plain t_pair _
                  eq_refl eq_refl eq_refl eq_refl)
           ltac:(intros [f [E _]]; discriminate E)
           1%nat (mkField (named "b") t_int32 4)).
  reflexivity.
Defined.

(** ** Padding and the width of the struct *)

Lemma skipn_nil_nth_error {A : Type} (l : list A) (n : nat) :
  skipn n l = [] -> nth_error l n = None.
Proof.
  revert n. induction l as [|x l IH]; intros [|n] H; simpl in *;
    try reflexivity; try discriminate H.
  apply IH. exact H.
Qed.

Lemma end_after_nth (t : Type_) (fs : list Field) (i : nat) :
  Type_Fields t = Ok fs ->
  end_after t (Z.of_nat i) =
    match nth_error fs (S i) with
    | Some g => Field_Offset g
    | None => Type_width t
    end.
Proof.
  intros Hf. unfold end_after.
  replace (Z.of_nat i + 1) with (Z.of_nat (S i)) by lia.
  rewrite (Type_Field_nth t fs (S i) Hf).
  destruct (nth_error fs (S i)); reflexivity.
Qed.

Lemma unpadded_suffix_width (t : Type_) (fs : list Field) :
  Type_Kind t = TSTRUCT -> Type_Fields t = Ok fs ->
  (forall i f, nth_error fs i = Some f ->
     IsPaddedField t (Z.of_nat i) = Ok false) ->
  forall (l : list Field) (i : nat) (f : Field),
    skipn i fs = f :: l ->
    Type_width t = Field_Offset f + sum_widths (f :: l).
Proof.
  intros Hk Hf Hp l. induction l as [|g l IH]; intros i f Hs.
  - apply skipn_cons_inv in Hs. destruct Hs as [Hi Hs].
    pose proof (Hp i f Hi) as Hpi.
    rewrite (IsPaddedField_nth t fs i f Hk Hf Hi) in Hpi.
    rewrite (end_after_nth t fs i Hf) in Hpi.
    rewrite (skipn_nil_nth_error fs (S i) Hs) in Hpi.
    injection Hpi as Hpi. apply negb_false_iff, Z.eqb_eq in Hpi.
    unfold Field_End in Hpi. simpl. lia.
  - apply skipn_cons_inv in Hs. destruct Hs as [Hi Hs].
    pose proof (Hp i f Hi) as Hpi.
    rewrite (IsPaddedField_nth t fs i f Hk Hf Hi) in Hpi.
    rewrite (end_after_nth t fs i Hf) in Hpi.
    pose proof (skipn_cons_inv fs (S i) g l Hs) as [Hg _].
    rewrite Hg in Hpi.
    injection Hpi as Hpi. apply negb_false_iff, Z.eqb_eq in Hpi.
    unfold Field_End in Hpi.
    rewrite (IH (S i) g Hs). simpl in *. lia.
Qed.

(** X13. When IsPaddedField reports no padding after any field of a struct, the
    fields lie end to end: each field starts where the one before it ends,
    and the width of the struct is the offset of the first field plus the
    widths of all the field types. *)
Theorem unpadded_fields_tile (t : Type_) (f0 : Field) (rest : list Field) :
  Type_Kind t = TSTRUCT -> Type_Fields t = Ok (f0 :: rest) ->
  (forall i f, nth_error (f0 :: rest) i = Some f ->
     IsPaddedField t (Z.of_nat i) = Ok false) ->
  (forall i f g,
      nth_error (f0 :: rest) i = Some f ->
      nth_error (f0 :: rest) (S i) = Some g ->
      Field_Offset g = Field_End f) /\
  Type_width t = Field_Offset f0 + sum_widths (f0 :: rest).
Proof.
  intros Hk Hf Hp. split.
  - intros i f g Hi Hg. pose proof (Hp i f Hi) as Hpi.
    rewrite (IsPaddedField_nth t _ i f Hk Hf Hi) in Hpi.
    rewrite (end_after_nth t _ i Hf), Hg in Hpi.
    injection Hpi as Hpi. apply negb_false_iff, Z.eqb_eq in Hpi.
    symmetry. exact Hpi.
  - apply (unpadded_suffix_width t (f0 :: rest) Hk Hf Hp rest 0%nat f0).
    reflexivity.
Qed.

Lemma unpadded_fields_tile_witness :
  Type_width t_pair = 0 + sum_widths
    [mkField (named "a") t_int32 0; mkField (named "b") t_int32 4].
Proof.
  refine (proj2 (unpadded_fields_tile t_pair (mkField (named "a") t_int32 0)
                   [mkField (named "b") t_int32 4] eq_refl eq_refl _)).
  intros [|[|[|j]]] f H; try reflexivity; discriminate H.
Defined.

(** ** What AlgType hands out, and where it comes from *)

Ltac leaf_kinds k H :=
  destruct k; simpl in H;
  unfold Type_IsEmptyInterface in H; simpl in H;
  try discriminate H.

Lemma AlgType_produced (t : Type_) :
  forall a, AlgType t = Ok a -> produced_tag a = true.
Proof.
  induction t as [k n w|k n w ms|k n w e b IH|k n w fs IH]
    using Type_induction; intros a H.
  - destruct n; [injection H as <-; reflexivity|].
    leaf_kinds k H; injection H as <-; reflexivity.
  - destruct n; [injection H as <-; reflexivity|].
    leaf_kinds k H; try (injection H as <-; reflexivity).
    destruct ms; injection H as <-; reflexivity.
  - destruct n; [injection H as <-; reflexivity|].
    leaf_kinds k H; try (injection H as <-; reflexivity).
    destruct (AlgType e) as [a0| |]; simpl in H; try discriminate H.
    specialize (IH a0 eq_refl).
    destruct ((a0 == AMEM) || (a0 == ANOEQ) || (a0 == ANOALG)).
    + injection H as <-. exact IH.
    + destruct b as [|[p|p|]|p]; injection H as <-;
        try reflexivity; exact IH.
  - destruct n; [injection H as <-; reflexivity|].
    destruct k; try (simpl in H; unfold Type_IsEmptyInterface in H;
                     simpl in H; try discriminate H;
                     injection H as <-; reflexivity).
    set (t := mkType TSTRUCT false w (Struct fs)) in *.
    destruct (AlgType_struct_scan_or_single t fs eq_refl eq_refl eq_refl)
      as [Hs | [f [E [_ Hs]]]].
    + rewrite Hs in H.
      destruct (scan_fields_cases t fs eq_refl eq_refl)
        as [[_ [[Hr _] | [Hr _]]]
           | [[pre [f [post [a0 [_ [_ [_ [Hbad Hr]]]]]]]]
             | [pre [f [post [_ [_ [Hab Hr]]]]]]]];
        rewrite Hr in H.
      * injection H as <-. reflexivity.
      * injection H as <-. reflexivity.
      * injection H as <-. destruct Hbad as [-> | ->]; reflexivity.
      * exfalso. apply (Hab a). exact H.
    + rewrite Hs in H. rewrite Forall_forall in IH.
      apply (IH f); [rewrite E; left; reflexivity | exact H].
Qed.

(** X1. AlgType never hands out one of the fixed-width memory tags AMEM0 to
    AMEM128, and it hands out ASPECIAL on arrays and structs only. *)
Theorem AlgType_never_fixed_width (t : Type_) (a : AlgKind) :
  AlgType t = Ok a ->
  produced_tag a = true /\
  (a = ASPECIAL -> Type_Kind t = TARRAY \/ Type_Kind t = TSTRUCT).
Proof.
  intros H. split; [apply (AlgType_produced t a H)|].
  intros ->. destruct t as [k n w ex]. simpl.
  destruct n; [discriminate H|].
  destruct k; auto; simpl in H; try discriminate H.
  unfold Type_IsEmptyInterface in H. simpl in H.
  destruct ex as [|[|m ms]|e b|fs]; discriminate H.
Qed.

Lemma AlgType_never_fixed_width_witness :
  produced_tag ASPECIAL = true /\
  (ASPECIAL = ASPECIAL ->
   Type_Kind t_gap = TARRAY \/ Type_Kind t_gap = TSTRUCT).
Proof. apply (AlgType_never_fixed_width t_gap ASPECIAL). reflexivity. Defined.

Lemma AlgType_Fatalf_origin (t : Type_) :
  forall msg u, AlgType t = Fatalf msg u ->
    msg = msg_AlgType /\ component u t /\
    Type_Noalg u = false /\ closed_kind (Type_Kind u) = false.
Proof.
  induction t as [k n w|k n w ms|k n w e b IH|k n w fs IH]
    using Type_induction; intros msg u H.
  - destruct n; [discriminate H|].
    leaf_kinds k H. injection H as <- <-.
    repeat split; constructor.
  - destruct n; [discriminate H|].
    leaf_kinds k H.
    + destruct ms; discriminate H.
    + injection H as <- <-. repeat split; constructor.
  - destruct n; [discriminate H|].
    leaf_kinds k H.
    + destruct (AlgType e) as [a0| |]; simpl in H; try discriminate H.
      * destruct ((a0 == AMEM) || (a0 == ANOEQ) || (a0 == ANOALG));
          [discriminate H|].
        destruct b as [|[p|p|]|p]; discriminate H.
      * destruct (IH msg u H) as [Hm [Hc Hrest]].
        split; [exact Hm|]. split; [|exact Hrest].
        apply (component_Elem u _ e); [reflexivity | exact Hc].
    + injection H as <- <-. repeat split; constructor.
  - destruct n; [discriminate H|].
    destruct k; try (simpl in H; unfold Type_IsEmptyInterface in H;
                     simpl in H; discriminate H).
    + set (t := mkType TSTRUCT false w (Struct fs)) in *.
      rewrite Forall_forall in IH.
      assert (Hfield : forall f, In f fs ->
                AlgType (Field_Type f) = Fatalf msg u ->
                msg = msg_AlgType /\ component u t /\
                Type_Noalg u = false /\ closed_kind (Type_Kind u) = false).
      { intros f Hin Hf. destruct (IH f Hin msg u Hf) as [Hm [Hc Hrest]].
        split; [exact Hm|]. split; [|exact Hrest].
        apply (component_Field u t fs f eq_refl Hin Hc). }
      destruct (AlgType_struct_scan_or_single t fs eq_refl eq_refl eq_refl)
        as [Hs | [f [E [_ Hs]]]].
      * rewrite Hs in H.
        destruct (scan_fields_cases t fs eq_refl eq_refl)
          as [[_ [[Hr _] | [Hr _]]]
             | [[pre [f [post [a0 [_ [_ [_ [_ Hr]]]]]]]]
               | [pre [f [post [E [_ [_ Hr]]]]]]]];
          rewrite Hr in H; try discriminate H.
        apply (Hfield f); [|exact H].
        rewrite E. apply in_or_app. right. left. reflexivity.
      * rewrite Hs in H. apply (Hfield f); [|exact H].
        rewrite E. left. reflexivity.
    + simpl in H. injection H as <- <-. repeat split; constructor.
Qed.

(** X2. Whenever AlgType ends in base.Fatalf, on any type, it is with its own
    message, on a component of the type whose Noalg flag is not set and
    whose kind the switch does not name: the abort of IsPaddedField is never
    reached from AlgType, which calls it on structs only. *)
Theorem AlgType_Fatalf_only_unexpected_kind (t : Type_) (msg : string)
        (u : Type_) :
  AlgType t = Fatalf msg u ->
  msg = msg_AlgType /\ msg <> msg_IsPaddedField /\ component u t /\
  Type_Noalg u = false /\ closed_kind (Type_Kind u) = false.
Proof.
  intros H. destruct (AlgType_Fatalf_origin t msg u H) as [Hm Hrest].
  split; [exact Hm|]. split; [|exact Hrest].
  rewrite Hm. discriminate.
Qed.

Lemma AlgType_Fatalf_only_unexpected_kind_witness :
  component (prim (Tother 3) 0)
            (struct_of 8 [mkField (named "a") t_int32 0;
                          mkField (named "b") (prim (Tother 3) 0) 4]).
Proof.
  apply (AlgType_Fatalf_only_unexpected_kind
           (struct_of 8 [mkField (named "a") t_int32 0;
                         mkField (named "b") (prim (Tother 3) 0) 4])
           msg_AlgType (prim (Tother 3) 0)).
  reflexivity.
Defined.

Lemma part_component (u t : Type_) : part u t -> component u t.
Proof.
  intros H. induction H as [|t e _ He _ IH|t fs f _ Hf Hin _ IH].
  - constructor.
  - apply (component_Elem u t e He IH).
  - apply (component_Field u t fs f Hf Hin IH).
Qed.

Lemma AlgType_origin (t : Type_) :
  forall a, AlgType t = Ok a ->
    (a = ANOALG -> exists u, part u t /\ Type_Noalg u = true) /\
    (a = ANOEQ ->
     exists u, part u t /\ Type_Noalg u = false /\
               noeq_kind (Type_Kind u) = true).
Proof.
  assert (Hflag : forall k w ex a,
            AlgType (mkType k true w ex) = Ok a ->
            (a = ANOALG ->
             exists u, part u (mkType k true w ex) /\
                       Type_Noalg u = true) /\
            (a = ANOEQ ->
             exists u, part u (mkType k true w ex) /\
                       Type_Noalg u = false /\
                       noeq_kind (Type_Kind u) = true)).
  { intros k w ex a H. injection H as <-. split; [|discriminate].
    intros _. eexists. split; [constructor | reflexivity]. }
  assert (Hleaf : forall (v : Type_) (a b : AlgKind),
            Ok b = Ok a -> Type_Noalg v = false ->
            (b = ANOEQ -> noeq_kind (Type_Kind v) = true) ->
            b <> ANOALG ->
            (a = ANOALG -> exists u, part u v /\ Type_Noalg u = true) /\
            (a = ANOEQ ->
             exists u, part u v /\ Type_Noalg u = false /\
                       noeq_kind (Type_Kind u) = true)).
  { intros v a b H Hn Hq Hna. injection H as <-. split.
    - intros ->. contradiction.
    - intros ->. exists v. split; [constructor|]. auto. }
  induction t as [k n w|k n w ms|k n w e b IH|k n w fs IH]
    using Type_induction; intros a H.
  - destruct n; [apply (Hflag _ _ _ _ H)|].
    leaf_kinds k H;
      (eapply Hleaf; [exact H | reflexivity | simpl; auto; discriminate
                     | discriminate]).
  - destruct n; [apply (Hflag _ _ _ _ H)|].
    leaf_kinds k H;
      try (eapply Hleaf; [exact H | reflexivity | simpl; auto; discriminate
                         | discriminate]).
    destruct ms;
      (eapply Hleaf; [exact H | reflexivity | discriminate | discriminate]).
  - destruct n; [apply (Hflag _ _ _ _ H)|].
    leaf_kinds k H;
      try (eapply Hleaf; [exact H | reflexivity | simpl; auto; discriminate
                         | discriminate]).
    destruct (AlgType e) as [a0| |]; simpl in H; try discriminate H.
    destruct (IH a0 eq_refl) as [IH1 IH2].
    assert (Hup : a = a0 ->
              (a = ANOALG ->
               exists u, part u (mkType TARRAY false w (Array e b)) /\
                         Type_Noalg u = true) /\
              (a = ANOEQ ->
               exists u, part u (mkType TARRAY false w (Array e b)) /\
                         Type_Noalg u = false /\
                         noeq_kind (Type_Kind u) = true)).
    { intros ->. split.
      - intros Ha. destruct (IH1 Ha) as [u [Hc Hu]]. exists u.
        split; [|exact Hu]. apply (part_Elem u _ e); [reflexivity | reflexivity | exact Hc].
      - intros Ha. destruct (IH2 Ha) as [u [Hc Hu]]. exists u.
        split; [|exact Hu]. apply (part_Elem u _ e); [reflexivity | reflexivity | exact Hc]. }
    destruct ((a0 == AMEM) || (a0 == ANOEQ) || (a0 == ANOALG)) eqn:Ec.
    + injection H as <-. apply Hup. reflexivity.
    + destruct b as [|[p|p|]|p]; injection H as <-;
        try (split; discriminate); apply Hup; reflexivity.
  - destruct n; [apply (Hflag _ _ _ _ H)|].
    destruct k;
      try (simpl in H; unfold Type_IsEmptyInterface in H; simpl in H;
           discriminate H);
      try (simpl in H;
           eapply Hleaf; [exact H | reflexivity | simpl; auto; discriminate
                         | discriminate]).
    set (t := mkType TSTRUCT false w (Struct fs)) in *.
    rewrite Forall_forall in IH.
    assert (Hfield : forall f, In f fs -> AlgType (Field_Type f) = Ok a ->
              (a = ANOALG -> exists u, part u t /\ Type_Noalg u = true) /\
              (a = ANOEQ ->
               exists u, part u t /\ Type_Noalg u = false /\
                         noeq_kind (Type_Kind u) = true)).
    { intros f Hin Hf. destruct (IH f Hin a Hf) as [IH1 IH2]. split.
      - intros Ha. destruct (IH1 Ha) as [u [Hc Hu]]. exists u.
        split; [|exact Hu]. apply (part_Field u t fs f eq_refl eq_refl Hin Hc).
      - intros Ha. destruct (IH2 Ha) as [u [Hc Hu]]. exists u.
        split; [|exact Hu]. apply (part_Field u t fs f eq_refl eq_refl Hin Hc). }
    destruct (AlgType_struct_scan_or_single t fs eq_refl eq_refl eq_refl)
      as [Hs | [f [E [_ Hs]]]].
    + rewrite Hs in H.
      destruct (scan_fields_cases t fs eq_refl eq_refl)
        as [[_ [[Hr _] | [Hr _]]]
           | [[pre [f [post [a0 [E [_ [Ha0 [_ Hr]]]]]]]]
             | [pre [f [post [_ [_ [Hab Hr]]]]]]]];
        rewrite Hr in H.
      * injection H as <-. split; discriminate.
      * injection H as <-. split; discriminate.
      * injection H as <-. apply (Hfield f); [|exact Ha0].
        rewrite E. apply in_or_app. right. left. reflexivity.
      * exfalso. apply (Hab a). exact H.
    + rewrite Hs in H. apply (Hfield f); [|exact H].
      rewrite E. left. reflexivity.
Qed.

(** X3. TypeHasNoAlg holds only of a type that is not comparable and that is,
    or has among its array elements and struct fields (at any depth), a
    type marked Noalg. *)
Theorem TypeHasNoAlg_marked_component (t : Type_) :
  TypeHasNoAlg t = Ok true ->
  IsComparable t = Ok false /\
  exists u, part u t /\ Type_Noalg u = true.
Proof.
  unfold TypeHasNoAlg, IsComparable.
  destruct (AlgType t) as [a| |] eqn:Ea; simpl; try discriminate.
  intros H. injection H as H. apply AlgKind_eqb_eq in H. subst a.
  split; [reflexivity|].
  apply (proj1 (AlgType_origin t ANOALG Ea)). reflexivity.
Qed.

Lemma TypeHasNoAlg_marked_component_witness :
  IsComparable t_int_then_noalg = Ok false /\
  exists u, part u t_int_then_noalg /\ Type_Noalg u = true.
Proof. apply (TypeHasNoAlg_marked_component t_int_then_noalg). reflexivity. Defined.

(** X4. A type that classifies as ANOEQ is, or has among its array elements
    and struct fields (at any depth), a type of kind any, forward, func, map or slice whose
    Noalg flag is not set. *)
Theorem AlgType_ANOEQ_has_noeq_kind (t : Type_) :
  AlgType t = Ok ANOEQ ->
  exists u, part u t /\ Type_Noalg u = false /\
            noeq_kind (Type_Kind u) = true.
Proof.
  intros H. apply (proj2 (AlgType_origin t ANOEQ H)). reflexivity.
Qed.

Lemma AlgType_ANOEQ_has_noeq_kind_witness :
  exists u, part u (array_of t_with_map 3) /\ Type_Noalg u = false /\
            noeq_kind (Type_Kind u) = true.
Proof. apply (AlgType_ANOEQ_has_noeq_kind (array_of t_with_map 3)). reflexivity. Defined.

(** ** Comparability of a whole type *)

Lemma AlgType_returns_closed (t : Type_) :
  well_formed t = true -> kinds_closed t = true ->
  exists a, AlgType t = Ok a.
Proof.
  intros Hwf Hc.
  destruct (AlgType_tag_or_abort t Hwf) as [Ha | [u [_ [Hu [_ Hk]]]]];
    [exact Ha|].
  rewrite (component_kinds_closed u t Hu Hc) in Hk. discriminate Hk.
Qed.

Lemma part_not_comparable (u t : Type_) :
  part u t ->
  Type_Noalg u = true \/ noeq_kind (Type_Kind u) = true ->
  well_formed t = true -> kinds_closed t = true ->
  IsComparable t = Ok false.
Proof.
  intros Hp Hbad.
  induction Hp as [|t e Hk He Hp IH|t fs f Hk Hf Hin Hp IH]; intros Hwf Hc.
  - destruct u as [k n w ex]; simpl in *.
    destruct n; [reflexivity|].
    destruct Hbad as [Hbad | Hbad]; [discriminate Hbad|].
    destruct k; try discriminate Hbad; reflexivity.
  - destruct (Type_Noalg t) eqn:Hn.
    + unfold IsComparable. rewrite (AlgType_Noalg t Hn). reflexivity.
    + rewrite (IsComparable_array_aux t e Hn Hk He). apply IH.
      * destruct t as [k n w ex]; simpl in *. subst k.
        unfold Type_Elem in He; simpl in He.
        destruct ex; try discriminate He. injection He as ->. exact Hwf.
      * destruct t as [k n w ex]; simpl in *.
        unfold Type_Elem in He; simpl in He.
        destruct ex; try discriminate He. injection He as ->.
        apply andb_true_iff in Hc. tauto.
  - destruct (Type_Noalg t) eqn:Hn.
    + unfold IsComparable. rewrite (AlgType_Noalg t Hn). reflexivity.
    + assert (Hfc : IsComparable (Field_Type f) = Ok false).
      { apply IH.
        - destruct t as [k n w ex]; simpl in *. subst k.
          unfold Type_Fields in Hf; simpl in Hf.
          destruct ex; try discriminate Hf. injection Hf as ->.
          rewrite forallb_forall in Hwf. apply Hwf. exact Hin.
        - destruct t as [k n w ex]; simpl in *.
          unfold Type_Fields in Hf; simpl in Hf.
          destruct ex; try discriminate Hf. injection Hf as ->.
          apply andb_true_iff in Hc. destruct Hc as [_ Hc].
          rewrite forallb_forall in Hc. apply Hc. exact Hin. }
      destruct (AlgType_returns_closed t Hwf Hc) as [a Ha].
      pose proof (IsComparable_struct_fields_aux t fs Hn Hk Hf) as Hiff.
      unfold IsComparable in *. rewrite Ha in *. simpl in *.
      destruct (negb (a == ANOEQ) && negb (a == ANOALG)); [|reflexivity].
      exfalso.
      pose proof (proj1 Hiff eq_refl) as Hall.
      rewrite Forall_forall in Hall. specialize (Hall f Hin).
      rewrite Hfc in Hall. discriminate Hall.
Qed.

(** X8. A well-formed type all of whose kinds the switch names is comparable
    exactly when neither the type nor any of its array elements and struct
    fields, at any depth, is marked Noalg or is of kind any, forward, func,
    map or slice. *)
Theorem IsComparable_iff_parts (t : Type_) :
  well_formed t = true -> kinds_closed t = true ->
  (IsComparable t = Ok true <->
   forall u, part u t ->
     Type_Noalg u = false /\ noeq_kind (Type_Kind u) = false).
Proof.
  intros Hwf Hc. split.
  - intros Ht u Hp.
    destruct (Type_Noalg u) eqn:Hn.
    + rewrite (part_not_comparable u t Hp (or_introl Hn) Hwf Hc) in Ht.
      discriminate Ht.
    + destruct (noeq_kind (Type_Kind u)) eqn:Hq; [|auto].
      rewrite (part_not_comparable u t Hp (or_intror Hq) Hwf Hc) in Ht.
      discriminate Ht.
  - intros Hall. apply IsComparable_true_iff.
    destruct (AlgType_returns_closed t Hwf Hc) as [a Ha].
    exists a. split; [exact Ha|]. split.
    + intros ->. destruct (proj2 (AlgType_origin t ANOEQ Ha) eq_refl)
        as [u [Hp [_ Hq]]].
      destruct (Hall u Hp) as [_ Hq']. rewrite Hq in Hq'. discriminate Hq'.
    + intros ->. destruct (proj1 (AlgType_origin t ANOALG Ha) eq_refl)
        as [u [Hp Hn]].
      destruct (Hall u Hp) as [Hn' _]. rewrite Hn in Hn'. discriminate Hn'.
Qed.

Lemma IsComparable_iff_parts_witness :
  Type_Noalg t_int8 = false /\ noeq_kind (Type_Kind t_int8) = false.
Proof.
  apply (proj1 (IsComparable_iff_parts (array_of t_gap 4)
                  eq_refl eq_refl) eq_refl t_int8).
  apply (part_Elem t_int8 (array_of t_gap 4) t_gap eq_refl eq_refl).
  apply (part_Field t_int8 t_gap _ (mkField (named "a") t_int8 0)
           eq_refl eq_refl).
  - left. reflexivity.
  - apply part_self.
Defined.
